(** * PoseCoreEngine: push-up counter, One Euro filter, geometry and scorer

    A shallow embedding of [src/scripts/counter.py], [src/scripts/filters.py],
    [src/scripts/geometry.py] and [src/scripts/scorer.py].

    Python floats are modelled as real numbers ([R]); Python integers as [Z]
    or [nat].  Operations that raise in Python ([ZeroDivisionError] on a
    float division, [TypeError] on arithmetic with [None]) are written in a
    small exception monad, so that "does not raise" is a statement about the
    model.  NumPy's array operations do not raise on division and are total
    functions here.

    Statements over [R] describe the arithmetic the code writes down, not
    its rounding or overflow.  Where a property depends on those, the
    filter is modelled a second time on binary64 numbers ([FiltersF]). *)

From Stdlib Require Import Reals Lra Lia ZArith Bool String List.
From Stdlib Require PrimFloat.
Import ListNotations.
Open Scope R_scope.

(** ** Python runtime: comparisons, exceptions *)

Module Py.

Definition Rleb (x y : R) : bool := if Rle_dec x y then true else false.
Definition Rltb (x y : R) : bool := if Rlt_dec x y then true else false.
Definition Rgtb (x y : R) : bool := Rltb y x.
Definition Rgeb (x y : R) : bool := Rleb y x.
Definition Reqb (x y : R) : bool := if Req_dec_T x y then true else false.

Inductive exn : Type :=
| ZeroDivisionError
| TypeError.

Inductive result (A : Type) : Type :=
| Ok (a : A)
| Raise (e : exn).
Arguments Ok {A} a.
Arguments Raise {A} e.

Definition bind {A B : Type} (m : result A) (k : A -> result B) : result B :=
  match m with
  | Ok a => k a
  | Raise e => Raise e
  end.

(** [x / y] on Python floats. *)
Definition truediv (x y : R) : result R :=
  if Reqb y 0 then Raise ZeroDivisionError else Ok (x / y).

(** Reading a float out of an attribute that may still hold [None]. *)
Definition as_float (v : option R) : result R :=
  match v with
  | Some x => Ok x
  | None => Raise TypeError
  end.

(** Builtin [max(a, b)] and [min(a, b)] on two numbers. *)
Definition max (a b : R) : R := if Rgtb b a then b else a.
Definition min (a b : R) : R := if Rltb b a then b else a.

(** Builtin [round(x, ndigits)]: nearest multiple of [10^-ndigits], ties to
    the even multiple. *)
Definition round_half_even (y : R) : Z :=
  let f := Int_part y in
  let d := y - IZR f in
  if Rltb d (1/2) then f
  else if Rltb (1/2) d then (f + 1)%Z
  else if Z.even f then f else (f + 1)%Z.

Definition round (x : R) (ndigits : nat) : R :=
  IZR (round_half_even (x * 10 ^ ndigits)) / 10 ^ ndigits.

End Py.

Notation "x <- m ;; k" := (Py.bind m (fun x => k))
  (at level 61, m at next level, right associativity).

(** ** counter.py *)

Module Counter.
Import Py.

Inductive phase : Type := Up | Down.

Definition phase_eqb (p q : phase) : bool :=
  match p, q with
  | Up, Up | Down, Down => true
  | _, _ => false
  end.

Record PushupCounter : Type := mkCounter {
  state : phase;
  reps : Z;
  down_frames : Z;
  up_frames : Z;
  down_angle : R;
  angle_tolerance : R;
  up_th : R;
  parallel_th : R;
  min_down_frames : Z;
  min_up_frames : Z
}.

(** [PushupCounter.__init__]: plain attribute assignments. *)
Definition init (down_angle angle_tolerance up_th parallel_th : R)
    (min_down_frames min_up_frames : Z) : result PushupCounter :=
  Ok {| state := Up; reps := 0; down_frames := 0; up_frames := 0;
        down_angle := down_angle; angle_tolerance := angle_tolerance;
        up_th := up_th; parallel_th := parallel_th;
        min_down_frames := min_down_frames;
        min_up_frames := min_up_frames |}.

(** The constructor with its default arguments. *)
Definition default : PushupCounter :=
  {| state := Up; reps := 0; down_frames := 0; up_frames := 0;
     down_angle := 90; angle_tolerance := 15; up_th := 140;
     parallel_th := 20; min_down_frames := 3; min_up_frames := 3 |}.

Definition in_down_position (self : PushupCounter) (elbow_angle : R)
    (arm_back_angle_diff : option R) : bool :=
  let in_down_angle_range :=
    Rleb (Rabs (elbow_angle - down_angle self)) (angle_tolerance self) in
  match arm_back_angle_diff with
  | Some d =>
      let is_parallel := Rleb d (parallel_th self) in
      in_down_angle_range && is_parallel
  | None => in_down_angle_range
  end.

Definition set_down (self : PushupCounter) (st : phase) (df : Z) : PushupCounter :=
  {| state := st; reps := reps self; down_frames := df; up_frames := 0;
     down_angle := down_angle self; angle_tolerance := angle_tolerance self;
     up_th := up_th self; parallel_th := parallel_th self;
     min_down_frames := min_down_frames self;
     min_up_frames := min_up_frames self |}.

Definition set_up (self : PushupCounter) (st : phase) (r uf : Z) : PushupCounter :=
  {| state := st; reps := r; down_frames := 0; up_frames := uf;
     down_angle := down_angle self; angle_tolerance := angle_tolerance self;
     up_th := up_th self; parallel_th := parallel_th self;
     min_down_frames := min_down_frames self;
     min_up_frames := min_up_frames self |}.

Definition set_frames (self : PushupCounter) (df uf : Z) : PushupCounter :=
  {| state := state self; reps := reps self; down_frames := df; up_frames := uf;
     down_angle := down_angle self; angle_tolerance := angle_tolerance self;
     up_th := up_th self; parallel_th := parallel_th self;
     min_down_frames := min_down_frames self;
     min_up_frames := min_up_frames self |}.

(** [PushupCounter.update]: returns [rep_completed] and the mutated object. *)
Definition update (self : PushupCounter) (elbow_angle : R)
    (arm_back_angle_diff : option R) : bool * PushupCounter :=
  if in_down_position self elbow_angle arm_back_angle_diff then
    let df := (down_frames self + 1)%Z in
    if phase_eqb (state self) Up && (min_down_frames self <=? df)%Z
    then (false, set_down self Down df)
    else (false, set_down self (state self) df)
  else if Rgtb elbow_angle (up_th self) then
    let uf := (up_frames self + 1)%Z in
    if phase_eqb (state self) Down && (min_up_frames self <=? uf)%Z
    then (true, set_up self Up (reps self + 1)%Z uf)
    else (false, set_up self (state self) (reps self) uf)
  else
    (false, set_frames self (Z.max 0 (down_frames self - 1))
                            (Z.max 0 (up_frames self - 1))).

(** [PushupCounter.reset]. *)
Definition reset (self : PushupCounter) : PushupCounter :=
  {| state := Up; reps := 0; down_frames := 0; up_frames := 0;
     down_angle := down_angle self; angle_tolerance := angle_tolerance self;
     up_th := up_th self; parallel_th := parallel_th self;
     min_down_frames := min_down_frames self;
     min_up_frames := min_up_frames self |}.

(** One frame handed to [update]. *)
Definition frame : Type := (R * option R)%type.

(** Feeding a sequence of frames; the signals come back in frame order. *)
Fixpoint run (self : PushupCounter) (fs : list frame) : list bool * PushupCounter :=
  match fs with
  | [] => ([], self)
  | (e, d) :: fs' =>
      let '(sig, self') := update self e d in
      let '(sigs, self'') := run self' fs' in
      (sig :: sigs, self'')
  end.

(** The three branches of [update], as properties of a frame. *)
Definition down_qualifying (self : PushupCounter) (f : frame) : Prop :=
  in_down_position self (fst f) (snd f) = true.

Definition up_qualifying (self : PushupCounter) (f : frame) : Prop :=
  in_down_position self (fst f) (snd f) = false /\ fst f > up_th self.

Definition transition_zone (self : PushupCounter) (f : frame) : Prop :=
  in_down_position self (fst f) (snd f) = false /\ ~ fst f > up_th self.

(** States reachable from a freshly constructed counter. *)
Inductive reachable : PushupCounter -> Prop :=
| reach_init : forall da tol up par mdf muf c,
    init da tol up par mdf muf = Ok c -> reachable c
| reach_update : forall c e d,
    reachable c -> reachable (snd (update c e d))
| reach_reset : forall c,
    reachable c -> reachable (reset c).

(** The six configuration attributes are never written after [__init__]. *)
Definition same_config (c c' : PushupCounter) : Prop :=
  down_angle c' = down_angle c /\ angle_tolerance c' = angle_tolerance c /\
  up_th c' = up_th c /\ parallel_th c' = parallel_th c /\
  min_down_frames c' = min_down_frames c /\ min_up_frames c' = min_up_frames c.

(** One full repetition on the default counter: three frames at 90 degrees,
    then three at 150 degrees. *)
Definition one_rep : list frame :=
  [(90, None); (90, None); (90, None); (150, None); (150, None); (150, None)].

End Counter.

(** ** filters.py *)

Module Filters.
Import Py.

Record OneEuroFilter : Type := mkFilter {
  freq : R;
  min_cutoff : R;
  beta : R;
  d_cutoff : R;
  x_prev : option R;
  dx_prev : option R;
  t_prev : option R
}.

(** [OneEuroFilter.__init__]: four [float(...)] conversions and three
    [None] assignments; no check on the values. *)
Definition init (freq min_cutoff beta d_cutoff : R) : result OneEuroFilter :=
  Ok {| freq := freq; min_cutoff := min_cutoff; beta := beta;
        d_cutoff := d_cutoff;
        x_prev := None; dx_prev := None; t_prev := None |}.

(** [OneEuroFilter._alpha]: three float divisions, each of which raises on a
    zero divisor. *)
Definition _alpha (cutoff freq : R) : result R :=
  tau <- truediv 1 (2 * PI * cutoff) ;;
  te <- truediv 1 freq ;;
  q <- truediv tau te ;;
  truediv 1 (1 + q).

Definition _exp_smooth (a x x_prev : R) : R := a * x + (1 - a) * x_prev.

Definition reset (self : OneEuroFilter) : OneEuroFilter :=
  {| freq := freq self; min_cutoff := min_cutoff self; beta := beta self;
     d_cutoff := d_cutoff self;
     x_prev := None; dx_prev := None; t_prev := None |}.

Definition store (self : OneEuroFilter) (x dx t : R) : OneEuroFilter :=
  {| freq := freq self; min_cutoff := min_cutoff self; beta := beta self;
     d_cutoff := d_cutoff self;
     x_prev := Some x; dx_prev := Some dx; t_prev := Some t |}.

(** [dt = max(1e-6, now - self.t_prev)]. *)
Definition time_delta (now t_prev : R) : R := max 1e-6 (now - t_prev).

(** [OneEuroFilter.__call__].  [clock] is what [time.time()] returns, read
    only when [t] is [None]. *)
Definition call (self : OneEuroFilter) (x : R) (t : option R) (clock : R)
    : result (R * OneEuroFilter) :=
  let now := match t with None => clock | Some t' => t' end in
  match t_prev self with
  | None => Ok (x, store self x 0 now)
  | Some tp =>
      let dt := time_delta now tp in
      freq <- truediv 1 dt ;;
      xp <- as_float (x_prev self) ;;
      let dx := (x - xp) * freq in
      a_d <- _alpha (d_cutoff self) freq ;;
      dp <- as_float (dx_prev self) ;;
      let dx_hat := _exp_smooth a_d dx dp in
      let cutoff := min_cutoff self + beta self * Rabs dx_hat in
      a <- _alpha cutoff freq ;;
      let x_hat := _exp_smooth a x xp in
      Ok (x_hat, store self x_hat dx_hat now)
  end.

(** The state after at least one call: all three attributes are set. *)
Definition initialized (self : OneEuroFilter) : Prop :=
  exists xp dp tp,
    x_prev self = Some xp /\ dx_prev self = Some dp /\ t_prev self = Some tp.

(** The configuration the constructor's docstring has in mind. *)
Definition valid_config (self : OneEuroFilter) : Prop :=
  0 < min_cutoff self /\ 0 < d_cutoff self /\ 0 <= beta self.

Record OneEuro2D : Type := mkFilter2D {
  fx : OneEuroFilter;
  fy : OneEuroFilter
}.

Definition call2D (self : OneEuro2D) (pt : R * R) (t : option R) (clock : R)
    : result ((R * R) * OneEuro2D) :=
  rx <- call (fx self) (fst pt) t clock ;;
  ry <- call (fy self) (snd pt) t clock ;;
  Ok ((fst rx, fst ry), {| fx := snd rx; fy := snd ry |}).

End Filters.

(** ** filters.py on binary64 numbers

    The same [OneEuroFilter], with Python's float arithmetic: IEEE 754
    binary64 operations that overflow to infinity and propagate NaN without
    raising, and a division that raises on a zero divisor. *)

Module FiltersF.
Import Py.
Import PrimFloat.
Local Open Scope float_scope.

(** [math.pi]. *)
Definition pi : float := 0x1.921fb54442d18p+1.

(** [x / y] on Python floats. *)
Definition truediv (x y : float) : result float :=
  if eqb y 0 then Raise ZeroDivisionError else Ok (x / y).

(** Builtin [max(a, b)]: [b] when [b > a], else [a]. *)
Definition max (a b : float) : float := if ltb a b then b else a.

Definition as_float (v : option float) : result float :=
  match v with
  | Some x => Ok x
  | None => Raise TypeError
  end.

Record OneEuroFilter : Type := mkFilter {
  freq : float;
  min_cutoff : float;
  beta : float;
  d_cutoff : float;
  x_prev : option float;
  dx_prev : option float;
  t_prev : option float
}.

Definition init (freq min_cutoff beta d_cutoff : float) : result OneEuroFilter :=
  Ok {| freq := freq; min_cutoff := min_cutoff; beta := beta;
        d_cutoff := d_cutoff;
        x_prev := None; dx_prev := None; t_prev := None |}.

Definition _alpha (cutoff freq : float) : result float :=
  tau <- truediv 1 (2 * pi * cutoff) ;;
  te <- truediv 1 freq ;;
  q <- truediv tau te ;;
  truediv 1 (1 + q).

Definition _exp_smooth (a x x_prev : float) : float :=
  a * x + (1 - a) * x_prev.

Definition store (self : OneEuroFilter) (x dx t : float) : OneEuroFilter :=
  {| freq := freq self; min_cutoff := min_cutoff self; beta := beta self;
     d_cutoff := d_cutoff self;
     x_prev := Some x; dx_prev := Some dx; t_prev := Some t |}.

Definition time_delta (now t_prev : float) : float :=
  max 0x1.0c6f7a0b5ed8dp-20 (now - t_prev).

Definition call (self : OneEuroFilter) (x : float) (t : option float)
    (clock : float) : result (float * OneEuroFilter) :=
  let now := match t with None => clock | Some t' => t' end in
  match t_prev self with
  | None => Ok (x, store self x 0 now)
  | Some tp =>
      let dt := time_delta now tp in
      freq <- truediv 1 dt ;;
      xp <- as_float (x_prev self) ;;
      let dx := (x - xp) * freq in
      a_d <- _alpha (d_cutoff self) freq ;;
      dp <- as_float (dx_prev self) ;;
      let dx_hat := _exp_smooth a_d dx dp in
      let cutoff := min_cutoff self + beta self * abs dx_hat in
      a <- _alpha cutoff freq ;;
      let x_hat := _exp_smooth a x xp in
      Ok (x_hat, store self x_hat dx_hat now)
  end.

(** The largest sample used below, [1e308], and its opposite. *)
Definition huge : float := 0x1.1ccf385ebc8ap+1023.

End FiltersF.

(** ** geometry.py *)

Module Geometry.
Import Py.

Definition point : Type := (R * R)%type.

Definition sub (p q : point) : point := (fst p - fst q, snd p - snd q).
Definition dot (u v : point) : R := fst u * fst v + snd u * snd v.
(** [np.linalg.norm] of a 2-vector. *)
Definition norm (u : point) : R := sqrt (fst u * fst u + snd u * snd u).
(** [np.degrees]. *)
Definition degrees (r : R) : R := r * (180 / PI).

(** [angle(a, b, c)]: the angle at [b]. *)
Definition angle (a b c : point) : R :=
  let ba := sub a b in
  let bc := sub c b in
  let nba := norm ba in
  let nbc := norm bc in
  if Rltb nba 1e-9 || Rltb nbc 1e-9 then 0
  else
    let cosv := dot ba bc / (nba * nbc) in
    let cosv := max (-1) (min 1 cosv) in
    degrees (acos cosv).

Definition collinearity (a b c : point) : R := angle a b c.

End Geometry.

(** ** NumPy routines used by scorer.py *)

Module Np.
Import Py.

(** The linear scan [binary_search_with_guess] performs on at most four
    sample points, after its two range checks: the last index [i - 1] with
    [key >= arr[1..i-1]]. *)
Fixpoint scan (key : R) (rest : list R) (i : Z) : Z :=
  match rest with
  | [] => (i - 1)%Z
  | a :: rest' => if Rgeb key a then scan key rest' (i + 1)%Z else (i - 1)%Z
  end.

(** [binary_search_with_guess(key, arr, len, guess)] of NumPy's
    [compiled_base.c].  The key is compared with the last sample point
    first and with the first sample point second; the sample points are not
    checked to be increasing.  Every [np.interp] call of scorer.py has two
    sample points, for which the search is this scan. *)
Definition binary_search (key : R) (arr : list R) : Z :=
  let len := length arr in
  if Rgtb key (nth (len - 1) arr 0) then Z.of_nat len
  else if Rltb key (nth 0 arr 0) then (-1)%Z
  else scan key (tl arr) 1.

(** [np.interp(x, xp, fp)] with the default [left], [right] and no
    [period]. *)
Definition interp (x : R) (xp fp : list R) : R :=
  let lenxp := length xp in
  let lval := nth 0 fp 0 in
  let rval := nth (lenxp - 1) fp 0 in
  if (lenxp =? 1)%nat then
    if Rltb x (nth 0 xp 0) then lval
    else if Rgtb x (nth 0 xp 0) then rval else nth 0 fp 0
  else
    let j := binary_search x xp in
    if (j =? -1)%Z then lval
    else if (j =? Z.of_nat lenxp)%Z then rval
    else
      let jn := Z.to_nat j in
      if (j =? Z.of_nat lenxp - 1)%Z then nth jn fp 0
      else if Reqb (nth jn xp 0) x then nth jn fp 0
      else
        let slope := (nth (S jn) fp 0 - nth jn fp 0)
                     / (nth (S jn) xp 0 - nth jn xp 0) in
        slope * (x - nth jn xp 0) + nth jn fp 0.

(** [a.min()], [a.max()] on a non-empty array. *)
Definition amin (a : list R) : R :=
  match a with
  | [] => 0
  | x :: t => fold_left Rmin t x
  end.

Definition amax (a : list R) : R :=
  match a with
  | [] => 0
  | x :: t => fold_left Rmax t x
  end.

(** [np.argmin]: the first index holding the minimum. *)
Fixpoint argmin_from (a : list R) (i : nat) (best : R) (besti : nat) : nat :=
  match a with
  | [] => besti
  | x :: t =>
      if Rltb x best then argmin_from t (S i) x i
      else argmin_from t (S i) best besti
  end.

Definition argmin (a : list R) : nat :=
  match a with
  | [] => 0%nat
  | x :: t => argmin_from t 1 x 0
  end.

Definition sum (a : list R) : R := fold_left Rplus a 0.
Definition mean (a : list R) : R := sum a / INR (length a).

(** [np.std]: population standard deviation. *)
Definition std (a : list R) : R :=
  let m := mean a in
  sqrt (mean (map (fun x => Rabs (x - m) ^ 2) a)).

Fixpoint insert (x : R) (l : list R) : list R :=
  match l with
  | [] => [x]
  | y :: t => if Rleb x y then x :: l else y :: insert x t
  end.

Fixpoint sort (l : list R) : list R :=
  match l with
  | [] => []
  | x :: t => insert x (sort t)
  end.

(** [np.percentile(a, q)] with the default linear method: the value at the
    virtual index [(q / 100) * (n - 1)] of the sorted data. *)
Definition percentile (a : list R) (q : R) : R :=
  let s := sort a in
  let n := length a in
  let virtual_index := q / 100 * (INR n - 1) in
  let previous := Z.to_nat (Int_part virtual_index) in
  let next := Nat.min (S previous) (n - 1) in
  let gamma := virtual_index - INR previous in
  nth previous s 0 + (nth next s 0 - nth previous s 0) * gamma.

(** [np.clip(x, lo, hi)]. *)
Definition clip (x lo hi : R) : R := Rmin (Rmax x lo) hi.

End Np.

(** ** scorer.py *)

Module Scorer.
Import Py.

(** The metrics dictionary handed to [add_frame]. *)
Record FrameMetrics : Type := mkFrame {
  elbowL : R;
  elbowR : R;
  shoulder_y : R;
  hip_y : R;
  line_dev : R
}.

(** A dictionary with string keys, in insertion order. *)
Definition dict : Type := list (string * R).

Fixpoint dict_get (k : string) (d : dict) : option R :=
  match d with
  | [] => None
  | (k', v) :: d' => if String.eqb k k' then Some v else dict_get k d'
  end.

(** What [finalize] returns; [notes] is present only for an empty buffer. *)
Record ScoreResult : Type := mkResult {
  score : R;
  breakdown : dict;
  notes : option (list string)
}.

Definition RepScorer : Type := list FrameMetrics.

Definition init : RepScorer := [].
Definition reset (self : RepScorer) : RepScorer := [].
Definition add_frame (self : RepScorer) (metrics : FrameMetrics) : RepScorer :=
  self ++ [metrics].

Section Finalize.
Variable frames : RepScorer.

Definition eL : list R := map elbowL frames.
Definition eR : list R := map elbowR frames.
Definition hip_ys : list R := map hip_y frames.
Definition sh_ys : list R := map shoulder_y frames.
Definition line_devs : list R := map line_dev frames.

Definition rom_bottom_score : R :=
  Np.interp (min (Np.amin eL) (Np.amin eR)) [110; 70] [0; 100].
Definition rom_top_score : R :=
  Np.interp (max (Np.amax eL) (Np.amax eR)) [120; 160] [0; 100].
Definition ROM : R := 0.6 * rom_bottom_score + 0.4 * rom_top_score.

Definition depth_series : list R :=
  map (fun m => shoulder_y m - hip_y m) frames.
Definition depth_score : R :=
  Np.interp (Np.amax depth_series) [0; 0.08] [0; 100].

Definition bodyline_score : R :=
  Np.interp (100 - Np.percentile line_devs 90) [60; 100] [0; 100].

Definition mean_elbow : list R :=
  map (fun m => (elbowL m + elbowR m) / 2) frames.
Definition min_idx : nat := Np.argmin mean_elbow.

Definition tempo (measured target : R) : result R :=
  q <- truediv (Rabs (measured - target)) (max 1e-6 target) ;;
  Ok (100 - min q 1 * 100).

Definition stability_score : R :=
  100 - Np.interp (Np.std hip_ys) [0; 0.03] [0; 100].

Definition sym_bottom : R := Rabs (nth min_idx eL 0 - nth min_idx eR 0).
Definition sym_top : R := Rabs (last eL 0 - last eR 0).
Definition symmetry_score : R :=
  100 - Np.interp ((sym_bottom + sym_top) / 2) [0; 15] [0; 100].

(** [RepScorer.finalize]. *)
Definition finalize (target_down_s target_up_s fps : R) : result ScoreResult :=
  match frames with
  | [] =>
      Ok {| score := 0; breakdown := [];
            notes := Some ["No frames captured"%string] |}
  | _ :: _ =>
      down_s <- truediv (IZR (Z.max (Z.of_nat min_idx) 1)) fps ;;
      up_s <- truediv
                (IZR (Z.max (Z.of_nat (length frames) - 1 - Z.of_nat min_idx) 1))
                fps ;;
      tempo_down <- tempo down_s target_down_s ;;
      tempo_up <- tempo up_s target_up_s ;;
      let tempo_score := 0.6 * tempo_down + 0.4 * tempo_up in
      let b_ROM := Np.clip ROM 0 100 in
      let b_Depth := Np.clip depth_score 0 100 in
      let b_BodyLine := Np.clip bodyline_score 0 100 in
      let b_Tempo := Np.clip tempo_score 0 100 in
      let b_Stability := Np.clip stability_score 0 100 in
      let b_Symmetry := Np.clip symmetry_score 0 100 in
      let breakdown :=
        [("ROM"%string, b_ROM);
         ("Depth"%string, b_Depth);
         ("BodyLine"%string, b_BodyLine);
         ("Tempo"%string, b_Tempo);
         ("Stability"%string, b_Stability);
         ("Symmetry"%string, b_Symmetry);
         ("down_seconds"%string, round down_s 2);
         ("up_seconds"%string, round up_s 2)] in
      let final :=
        0.35 * b_ROM + 0.15 * b_Depth + 0.20 * b_BodyLine
        + 0.10 * b_Tempo + 0.10 * b_Stability + 0.10 * b_Symmetry in
      Ok {| score := round final 1; breakdown := breakdown; notes := None |}
  end.

End Finalize.

(** The six sub-score keys of the breakdown. *)
Definition sub_scores : list string :=
  ["ROM"; "Depth"; "BodyLine"; "Tempo"; "Stability"; "Symmetry"]%string.

(** Linear interpolation through [(x0, y0)] and [(x1, y1)], clamped to the
    end values outside the interval between [x0] and [x1]: the
    interpolation the scoring rules describe, for either orientation of the
    interval. *)
Definition lerp_clamped (x x0 y0 x1 y1 : R) : R :=
  let t := (x - x0) / (x1 - x0) in
  y0 + (y1 - y0) * Rmin 1 (Rmax 0 t).

End Scorer.

(** ** Further code of counter.py, filters.py, geometry.py and
    pose_detection.py *)

Module CounterMore.
Import Py Counter.

(** Frames a counter has provably consumed towards its next repetition:
    every counted repetition stands for [min_down_frames + min_up_frames]
    frames, the phase [Down] for [min_down_frames] more. *)
Definition progress (c : PushupCounter) : Z :=
  ((min_down_frames c + min_up_frames c) * reps c
   + match state c with
     | Up => down_frames c
     | Down => min_down_frames c + up_frames c
     end)%Z.

(** The frame counter of the current phase stays below its threshold. *)
Definition pending (c : PushupCounter) : Prop :=
  (0 <= down_frames c)%Z /\ (0 <= up_frames c)%Z /\ (0 <= reps c)%Z /\
  match state c with
  | Up => (down_frames c < min_down_frames c)%Z
  | Down => (up_frames c < min_up_frames c)%Z
  end.

End CounterMore.

Module FiltersMore.
Import Py Filters.

(** [OneEuro2D.__init__]: two filters with the same configuration. *)
Definition init2D (freq min_cutoff beta d_cutoff : R) : result OneEuro2D :=
  fx <- init freq min_cutoff beta d_cutoff ;;
  fy <- init freq min_cutoff beta d_cutoff ;;
  Ok {| fx := fx; fy := fy |}.

(** [OneEuro2D.reset]. *)
Definition reset2D (self : OneEuro2D) : OneEuro2D :=
  {| fx := reset (fx self); fy := reset (fy self) |}.

(** Calling one filter on a sequence of timestamped samples [(x, t)]; the
    outputs come back in order. *)
Fixpoint feed (self : OneEuroFilter) (samples : list (R * R))
    : result (list R * OneEuroFilter) :=
  match samples with
  | [] => Ok ([], self)
  | (x, t) :: rest =>
      r <- call self x (Some t) 0 ;;
      rs <- feed (snd r) rest ;;
      Ok (fst r :: fst rs, snd rs)
  end.

End FiltersMore.

Module GeometryMore.
Import Py Geometry.

(** [np.arctan2(y, x)] on reals: the argument of the point [(x, y)] in
    (-PI, PI], and 0 at the origin. *)
Definition arctan2 (y x : R) : R :=
  if Rgtb x 0 then atan (y / x)
  else if Rltb x 0 then
    if Rgeb y 0 then atan (y / x) + PI else atan (y / x) - PI
  else if Rgtb y 0 then PI / 2
  else if Rltb y 0 then - (PI / 2)
  else 0.

(** [arm_torso_angle_diff(shoulder, elbow, hip)]. *)
Definition arm_torso_angle_diff (shoulder elbow hip : point) : R :=
  let arm_vec := sub elbow shoulder in
  let arm_angle := degrees (arctan2 (snd arm_vec) (fst arm_vec)) in
  let torso_vec := sub hip shoulder in
  let torso_angle := degrees (arctan2 (snd torso_vec) (fst torso_vec)) in
  let diff := Rabs (arm_angle - torso_angle) in
  if Rgtb diff 180 then 360 - diff else diff.

(** Builtin [int(x)] on a float: truncation towards zero. *)
Definition int (x : R) : Z :=
  if Rleb 0 x then Int_part x else (- Int_part (- x))%Z.

(** The reason returned by [is_in_pushup_position]: each message template
    with the values its f-string formats. *)
Inductive reason : Type :=
| Legs_bent (knee_angle : Z) (min_plank_angle : R)
| Not_horizontal (torso_angle : Z) (max_body_tilt : R)
| Face_not_pointing_down
| Valid_push_up_position.

(** [is_in_pushup_position]. *)
Definition is_in_pushup_position (shoulder hip knee ankle nose : point)
    (min_plank_angle max_body_tilt face_down_threshold : R) : bool * reason :=
  let knee_angle := angle hip knee ankle in
  if Rltb knee_angle min_plank_angle then
    (false, Legs_bent (int knee_angle) min_plank_angle)
  else
    let torso_vec := sub hip shoulder in
    let torso_angle_from_horizontal :=
      Rabs (degrees (arctan2 (snd torso_vec) (fst torso_vec))) in
    if Rgtb torso_angle_from_horizontal max_body_tilt then
      (false, Not_horizontal (int torso_angle_from_horizontal) max_body_tilt)
    else
      let body_height := Rabs (snd shoulder - snd ankle) in
      let face_down_dist := snd nose - snd shoulder in
      if Rgtb body_height 0 then
        let face_ratio := face_down_dist / body_height in
        if Rltb face_ratio face_down_threshold then
          (false, Face_not_pointing_down)
        else (true, Valid_push_up_position)
      else (true, Valid_push_up_position).

End GeometryMore.

(** ** pose_detection.py: the keypoint table *)

Module PoseDetection.

Definition KEYPOINT_NAMES : list string :=
  ["nose"; "left_eye"; "right_eye"; "left_ear"; "right_ear";
   "left_shoulder"; "right_shoulder"; "left_elbow"; "right_elbow";
   "left_wrist"; "right_wrist"; "left_hip"; "right_hip";
   "left_knee"; "right_knee"; "left_ankle"; "right_ankle"]%string.

Fixpoint enumerate_from {A : Type} (i : nat) (l : list A) : list (nat * A) :=
  match l with
  | [] => []
  | x :: t => (i, x) :: enumerate_from (S i) t
  end.

(** Assignment [d[k] = v] on a dictionary kept in insertion order. *)
Fixpoint dict_set (k : string) (v : nat) (d : list (string * nat))
    : list (string * nat) :=
  match d with
  | [] => [(k, v)]
  | (k', v') :: d' =>
      if String.eqb k k' then (k', v) :: d' else (k', v') :: dict_set k v d'
  end.

Fixpoint dict_lookup (k : string) (d : list (string * nat)) : option nat :=
  match d with
  | [] => None
  | (k', v) :: d' => if String.eqb k k' then Some v else dict_lookup k d'
  end.

(** [{name: i for i, name in enumerate(KEYPOINT_NAMES)}]. *)
Definition NAME_TO_IDX : list (string * nat) :=
  fold_left (fun d p => dict_set (snd p) (fst p) d)
            (enumerate_from 0 KEYPOINT_NAMES) [].

Inductive error : Type :=
| KeyError (k : string)
| IndexError.

(** [get_keypoint(name, keypoints_xy, confidences)]. *)
Definition get_keypoint (name : string) (keypoints_xy : list (R * R))
    (confidences : list R) : error + ((R * R) * R) :=
  match dict_lookup name NAME_TO_IDX with
  | None => inl (KeyError name)
  | Some idx =>
      match nth_error keypoints_xy idx with
      | None => inl IndexError
      | Some p =>
          match nth_error confidences idx with
          | None => inl IndexError
          | Some c => inr (p, c)
          end
      end
  end.

(** The keypoints the main loop reads every frame. *)
Definition needed_keypoints : list string :=
  ["nose"; "left_shoulder"; "right_shoulder"; "left_elbow"; "right_elbow";
   "left_wrist"; "right_wrist"; "left_hip"; "right_hip";
   "left_knee"; "right_knee"; "left_ankle"; "right_ankle"]%string.

End PoseDetection.

(** ** main.py: the repetition tracking of the frame loop *)

Module Main.
Import Py.

(** The three objects the loop carries from frame to frame. *)
Record tracker : Type := mkTracker {
  counter : Counter.PushupCounter;
  rep_scorer : Scorer.RepScorer;
  in_rep : bool
}.

(** The loop's counter, as [main] constructs it. *)
Definition main_counter : Counter.PushupCounter :=
  {| Counter.state := Counter.Up; Counter.reps := 0;
     Counter.down_frames := 0; Counter.up_frames := 0;
     Counter.down_angle := 80; Counter.angle_tolerance := 30;
     Counter.up_th := 120; Counter.parallel_th := 40;
     Counter.min_down_frames := 1; Counter.min_up_frames := 1 |}.

(** The body of [if is_valid_position:] in [main]: start a repetition when
    the mean elbow angle drops below 160, buffer the frame while one is in
    progress, update the counter, and score the buffer when the counter
    signals a completed repetition.  The result is the scored repetition, if
    any. *)
Definition track (s : tracker)
    (elbowL elbowR shoulder_y_norm hip_y_norm line_dev arm_back_diff avg_fps : R)
    : result (tracker * option Scorer.ScoreResult) :=
  let elbow_avg := (elbowL + elbowR) / 2 in
  let start := negb (in_rep s) && Rltb elbow_avg 160 in
  let in_rep1 := if start then true else in_rep s in
  let scorer1 := if start then Scorer.reset (rep_scorer s) else rep_scorer s in
  let scorer2 :=
    if in_rep1 then
      Scorer.add_frame scorer1
        (Scorer.mkFrame elbowL elbowR shoulder_y_norm hip_y_norm line_dev)
    else scorer1 in
  let upd := Counter.update (counter s) elbow_avg (Some arm_back_diff) in
  if fst upd && in_rep1 then
    r <- Scorer.finalize scorer2 2 1 avg_fps ;;
    Ok ({| counter := snd upd; rep_scorer := scorer2; in_rep := false |},
        Some r)
  else
    Ok ({| counter := snd upd; rep_scorer := scorer2; in_rep := in_rep1 |},
        None).

End Main.

(** * Properties *)

Section PyFacts.
Import Py.

Lemma Rleb_true x y : x <= y -> Rleb x y = true.
Proof. unfold Rleb; destruct (Rle_dec x y); [reflexivity | contradiction]. Qed.

Lemma Rleb_false x y : ~ x <= y -> Rleb x y = false.
Proof. unfold Rleb; destruct (Rle_dec x y); [contradiction | reflexivity]. Qed.

Lemma Rltb_true x y : x < y -> Rltb x y = true.
Proof. unfold Rltb; destruct (Rlt_dec x y); [reflexivity | contradiction]. Qed.

Lemma Rltb_false x y : ~ x < y -> Rltb x y = false.
Proof. unfold Rltb; destruct (Rlt_dec x y); [contradiction | reflexivity]. Qed.

Lemma Rltb_spec x y : Rltb x y = true <-> x < y.
Proof. unfold Rltb; destruct (Rlt_dec x y); split; (easy || discriminate). Qed.

Lemma Reqb_true x y : x = y -> Reqb x y = true.
Proof. unfold Reqb; destruct (Req_dec_T x y); [reflexivity | contradiction]. Qed.

Lemma Reqb_false x y : x <> y -> Reqb x y = false.
Proof. unfold Reqb; destruct (Req_dec_T x y); [contradiction | reflexivity]. Qed.

Lemma max_Rmax a b : max a b = Rmax a b.
Proof.
  unfold max, Rgtb, Rltb, Rmax.
  destruct (Rlt_dec a b), (Rle_dec a b); lra.
Qed.

Lemma min_Rmin a b : min a b = Rmin a b.
Proof.
  unfold min, Rltb, Rmin.
  destruct (Rlt_dec b a), (Rle_dec a b); lra.
Qed.

End PyFacts.

(** ** Repetition state machine *)

Section CounterFacts.
Import Py Counter.

Lemma same_config_refl c : same_config c c.
Proof. repeat split. Qed.

Lemma same_config_trans c1 c2 c3 :
  same_config c1 c2 -> same_config c2 c3 -> same_config c1 c3.
Proof. unfold same_config; intuition congruence. Qed.

Lemma update_same_config c e d : same_config c (snd (update c e d)).
Proof.
  unfold update.
  repeat match goal with |- context [if ?b then _ else _] => destruct b end;
    repeat split.
Qed.

Lemma in_down_position_config c c' e d :
  same_config c c' -> in_down_position c' e d = in_down_position c e d.
Proof.
  intros (Ha & Ht & _ & Hp & _). unfold in_down_position.
  now rewrite Ha, Ht, Hp.
Qed.

Lemma down_qualifying_config c c' f :
  same_config c c' -> down_qualifying c f -> down_qualifying c' f.
Proof.
  unfold down_qualifying; intros H Hd.
  now rewrite (in_down_position_config c c').
Qed.

Lemma up_qualifying_config c c' f :
  same_config c c' -> up_qualifying c f -> up_qualifying c' f.
Proof.
  unfold up_qualifying; intros H [Hd Hu].
  rewrite (in_down_position_config c c') by assumption.
  destruct H as (_ & _ & Hup & _). now rewrite Hup.
Qed.

Lemma run_app c fs gs :
  run c (fs ++ gs) =
  (fst (run c fs) ++ fst (run (snd (run c fs)) gs),
   snd (run (snd (run c fs)) gs)).
Proof.
  revert c; induction fs as [|[e d] fs IH]; intros c; simpl.
  - now destruct (run c gs).
  - destruct (update c e d) as [sig c1]. rewrite IH.
    destruct (run c1 fs) as [s1 c2]; simpl.
    now destruct (run c2 gs).
Qed.

Lemma run_reachable c fs : reachable c -> reachable (snd (run c fs)).
Proof.
  revert c; induction fs as [|[e d] fs IH]; intros c Hc; simpl; [assumption|].
  pose proof (reach_update c e d Hc) as H1.
  destruct (update c e d) as [sig c1]; simpl in H1.
  specialize (IH c1 H1). now destruct (run c1 fs).
Qed.

(** What one frame of each kind does. *)
Lemma update_down c e d :
  down_qualifying c (e, d) ->
  update c e d =
  (false,
   set_down c (if phase_eqb (state c) Up
                  && (min_down_frames c <=? down_frames c + 1)%Z
               then Down else state c)
            (down_frames c + 1)).
Proof.
  unfold down_qualifying, update; simpl; intros ->.
  now destruct (phase_eqb (state c) Up && _).
Qed.

Lemma update_up c e d :
  up_qualifying c (e, d) ->
  update c e d =
  if phase_eqb (state c) Down && (min_up_frames c <=? up_frames c + 1)%Z
  then (true, set_up c Up (reps c + 1) (up_frames c + 1))
  else (false, set_up c (state c) (reps c) (up_frames c + 1)).
Proof.
  unfold up_qualifying, update; simpl; intros [-> Hu].
  unfold Rgtb. now rewrite Rltb_true by exact Hu.
Qed.

Lemma update_transition c e d :
  transition_zone c (e, d) ->
  update c e d =
  (false, set_frames c (Z.max 0 (down_frames c - 1)) (Z.max 0 (up_frames c - 1))).
Proof.
  unfold transition_zone, update; simpl; intros [-> Hu].
  unfold Rgtb. now rewrite Rltb_false by exact Hu.
Qed.

(** A block of down-qualifying frames: no signal, the down counter grows by
    the block length, the up counter is cleared, and the phase is [Down]
    exactly when the threshold was met on the way. *)
Lemma run_down fs : forall c,
  Forall (down_qualifying c) fs ->
  fst (run c fs) = repeat false (length fs) /\
  reps (snd (run c fs)) = reps c /\
  same_config c (snd (run c fs)) /\
  down_frames (snd (run c fs)) = (down_frames c + Z.of_nat (length fs))%Z /\
  (fs <> [] -> up_frames (snd (run c fs)) = 0%Z) /\
  (state c = Up ->
   (down_frames c + Z.of_nat (length fs) < min_down_frames c)%Z ->
   state (snd (run c fs)) = Up) /\
  (fs <> [] ->
   (min_down_frames c <= down_frames c + Z.of_nat (length fs))%Z ->
   state (snd (run c fs)) = Down).
Proof.
  induction fs as [|[e d] fs IH]; intros c Hall.
  - simpl. repeat split; try easy. lia.
  - inversion Hall as [|? ? Hf Hfs]; subst.
    cbn [run]. rewrite (update_down c e d Hf).
    set (c1 := set_down c _ _).
    assert (Hcfg : same_config c c1) by (repeat split).
    assert (Hfs1 : Forall (down_qualifying c1) fs).
    { eapply Forall_impl; [|exact Hfs].
      intros f. apply down_qualifying_config, Hcfg. }
    destruct (IH c1 Hfs1) as (Hs & Hr & Hc & Hd & Hu & HUp & HDown).
    destruct (run c1 fs) as [sigs c2] eqn:Erun; cbn [fst snd] in *.
    assert (Hmdf : min_down_frames c1 = min_down_frames c) by reflexivity.
    assert (Hdf1 : down_frames c1 = (down_frames c + 1)%Z) by reflexivity.
    rewrite Hmdf, Hdf1 in *.
    repeat split.
    + now rewrite Hs.
    + exact Hr.
    + apply Hc.
    + apply Hc.
    + apply Hc.
    + apply Hc.
    + apply Hc.
    + apply Hc.
    + rewrite Hd. cbn [length]. lia.
    + intros _. destruct fs as [|f fs'].
      * simpl in Erun. now inversion Erun.
      * now apply Hu.
    + intros HU Hlt. cbn [length] in Hlt. apply HUp; [|lia].
      subst c1; cbn [state set_down]. rewrite HU. cbn [phase_eqb andb].
      destruct (Z.leb_spec (min_down_frames c) (down_frames c + 1)); [lia|reflexivity].
    + intros _ Hge. cbn [length] in Hge. destruct fs as [|f fs'].
      * simpl in Erun. inversion Erun; subst c2.
        subst c1; cbn [state set_down]. cbn [length] in Hge.
        destruct (state c) eqn:Est; cbn [phase_eqb andb]; [|reflexivity].
        destruct (Z.leb_spec (min_down_frames c) (down_frames c + 1)); [reflexivity|lia].
      * apply HDown; [discriminate | lia].
Qed.

(** A block of up-qualifying frames that starts in [Down] and ends exactly
    when the up counter meets its threshold: the only signal is the last. *)
Lemma run_up fs : forall c,
  Forall (up_qualifying c) fs ->
  fs <> [] ->
  state c = Down ->
  (up_frames c + Z.of_nat (length fs) = min_up_frames c)%Z ->
  fst (run c fs) = repeat false (length fs - 1) ++ [true] /\
  reps (snd (run c fs)) = (reps c + 1)%Z /\
  state (snd (run c fs)) = Up.
Proof.
  induction fs as [|[e d] fs IH]; intros c Hall Hne Hst Hlen; [easy|].
  inversion Hall as [|? ? Hf Hfs]; subst.
  cbn [run]. rewrite (update_up c e d Hf). rewrite Hst. cbn [phase_eqb andb].
  destruct fs as [|f fs'].
  - cbn [length] in Hlen.
    destruct (Z.leb_spec (min_up_frames c) (up_frames c + 1)); [|lia].
    simpl. repeat split.
  - cbn [length] in Hlen.
    destruct (Z.leb_spec (min_up_frames c) (up_frames c + 1)); [lia|].
    set (c1 := set_up c Down (reps c) (up_frames c + 1)).
    assert (Hcfg : same_config c c1) by (repeat split).
    assert (Hfs1 : Forall (up_qualifying c1) (f :: fs')).
    { eapply Forall_impl; [|exact Hfs].
      intros g. apply up_qualifying_config, Hcfg. }
    destruct (IH c1 Hfs1) as (Hs & Hr & Hp); [discriminate | reflexivity | |].
    { subst c1; cbn [up_frames min_up_frames set_up length]. cbn [length] in Hlen. lia. }
    destruct (run c1 (f :: fs')) as [sigs c2]; cbn [fst snd] in *.
    repeat split; [|exact Hr|exact Hp].
    rewrite Hs. cbn [length]. replace (S (S (length fs')) - 1)%nat with (S (length fs')) by lia.
    replace (S (length fs') - 1)%nat with (length fs') by lia. reflexivity.
Qed.

Lemma count_occ_signals n :
  count_occ bool_dec (repeat false n ++ [true]) true = 1%nat.
Proof. induction n; simpl; [reflexivity | exact IHn]. Qed.

End CounterFacts.

Section CounterClaims.
Import Py Counter.

(** Deciding a comparison of concrete reals. *)
Ltac Rabs_lra := unfold Rabs; destruct (Rcase_abs _); lra.

Lemma default_down_frame : down_qualifying default (90, None).
Proof.
  unfold down_qualifying, in_down_position; cbn [fst snd default down_angle angle_tolerance].
  apply Rleb_true. Rabs_lra.
Qed.

Lemma default_up_frame : up_qualifying default (150, None).
Proof.
  unfold up_qualifying, in_down_position; cbn [fst snd default down_angle angle_tolerance up_th].
  split; [apply Rleb_false; Rabs_lra | lra].
Qed.

Lemma default_transition_frame : transition_zone default (120, None).
Proof.
  unfold transition_zone, in_down_position; cbn [fst snd default down_angle angle_tolerance up_th].
  split; [apply Rleb_false; Rabs_lra | lra].
Qed.

Lemma run_one_rep :
  run default one_rep =
  ([false; false; false; false; false; true],
   {| state := Up; reps := 1; down_frames := 0; up_frames := 3;
      down_angle := 90; angle_tolerance := 15; up_th := 140;
      parallel_th := 20; min_down_frames := 3; min_up_frames := 3 |}).
Proof.
  unfold one_rep. cbn [run].
  rewrite (update_down default 90 None default_down_frame).
  cbn.
  repeat
    (match goal with
     | |- context [update ?c 90 None] =>
         rewrite (update_down c 90 None
                    (down_qualifying_config default c _ ltac:(repeat split)
                       default_down_frame)); cbn
     | |- context [update ?c 150 None] =>
         rewrite (update_up c 150 None
                    (up_qualifying_config default c _ ltac:(repeat split)
                       default_up_frame)); cbn
     end).
  reflexivity.
Qed.

(** C10: in every state reachable from a fresh counter through [update] and
    [reset], both frame counters are non-negative and at least one of them
    is 0. *)
Theorem counters_never_both_positive : forall c,
  reachable c ->
  (0 <= down_frames c)%Z /\ (0 <= up_frames c)%Z /\
  (down_frames c = 0%Z \/ up_frames c = 0%Z).
Proof.
  intros c Hc. induction Hc as [da tol up par mdf muf c Hinit | c e d Hc IH | c Hc IH].
  - inversion Hinit; subst; cbn. lia.
  - destruct IH as (Hd & Hu & Hz). unfold update.
    repeat match goal with |- context [if ?b then _ else _] => destruct b end;
      cbn [snd down_frames up_frames set_down set_up set_frames]; lia.
  - cbn. lia.
Qed.

Lemma counters_never_both_positive_witness :
  let c := snd (run default one_rep) in
  (0 <= down_frames c)%Z /\ (0 <= up_frames c)%Z /\
  (down_frames c = 0%Z \/ up_frames c = 0%Z).
Proof.
  apply (counters_never_both_positive (snd (run default one_rep))).
  apply run_reachable.
  apply (reach_init 90 15 140 20 3 3). reflexivity.
Defined.

(** C3 as stated fails: [reset] does not keep the cumulative count.  After
    one counted repetition on the default counter, [reset] puts [reps] back
    to 0. *)
Lemma reset_keeps_reps_counterexample :
  let c := snd (run default one_rep) in
  reachable c /\ reps c = 1%Z /\ reps (reset c) = 0%Z /\
  reps (reset c) <> reps c.
Proof.
  cbv zeta. split.
  - apply run_reachable. apply (reach_init 90 15 140 20 3 3). reflexivity.
  - rewrite run_one_rep. cbn. repeat split. discriminate.
Qed.

(** C3, amended: [reset] puts the phase back to [Up] and both frame counters
    and the cumulative count back to 0; the configuration is untouched. *)
Theorem reset_reinitializes : forall c,
  state (reset c) = Up /\
  down_frames (reset c) = 0%Z /\ up_frames (reset c) = 0%Z /\
  reps (reset c) = 0%Z /\
  same_config c (reset c).
Proof. intros c. repeat split. Qed.

(** C4: from a fresh counter with positive frame thresholds,
    [min_down_frames - 1] down-qualifying frames followed by one
    transition-zone frame leave the phase [Up]; [min_down_frames]
    down-qualifying frames followed by [min_up_frames] up-qualifying frames
    give exactly one completion signal (the last one) and [reps = 1]. *)
Theorem hysteresis : forall da tol up par mdf muf c0,
  (0 < mdf)%Z -> (0 < muf)%Z ->
  init da tol up par mdf muf = Ok c0 ->
  (forall ds tz,
     Z.of_nat (length ds) = (mdf - 1)%Z ->
     Forall (down_qualifying c0) ds ->
     transition_zone c0 tz ->
     state (snd (run c0 (ds ++ [tz]))) = Up /\
     reps (snd (run c0 (ds ++ [tz]))) = 0%Z) /\
  (forall ds us,
     Z.of_nat (length ds) = mdf ->
     Forall (down_qualifying c0) ds ->
     Z.of_nat (length us) = muf ->
     Forall (up_qualifying c0) us ->
     fst (run c0 (ds ++ us)) =
       repeat false (length ds + length us - 1) ++ [true] /\
     count_occ bool_dec (fst (run c0 (ds ++ us))) true = 1%nat /\
     reps (snd (run c0 (ds ++ us))) = 1%Z /\
     state (snd (run c0 (ds ++ us))) = Up).
Proof.
  intros da tol up par mdf muf c0 Hmdf Hmuf Hinit.
  unfold init in Hinit. injection Hinit as Hc0.
  assert (Hst0 : state c0 = Up) by now rewrite <- Hc0.
  assert (Hr0 : reps c0 = 0%Z) by now rewrite <- Hc0.
  assert (Hd0 : down_frames c0 = 0%Z) by now rewrite <- Hc0.
  assert (Hm0 : min_down_frames c0 = mdf) by now rewrite <- Hc0.
  assert (Hu0 : min_up_frames c0 = muf) by now rewrite <- Hc0.
  clear Hc0.
  split.
  - intros ds [e d] Hlen Hds Htz.
    destruct (run_down ds c0 Hds) as (_ & Hr & Hc & Hd & _ & HUp & _).
    rewrite run_app. cbn [snd run].
    set (c1 := snd (run c0 ds)) in *.
    assert (Htz1 : transition_zone c1 (e, d)).
    { destruct Htz as [Hn Hu]. split.
      - cbn [fst snd] in *. now rewrite (in_down_position_config c0 c1).
      - cbn [fst snd] in *. destruct Hc as (_ & _ & Hup & _). now rewrite Hup. }
    rewrite (update_transition c1 e d Htz1). cbn.
    split; [|congruence].
    apply HUp; [assumption | lia].
  - intros ds us Hlen Hds Hlenu Hus.
    destruct (run_down ds c0 Hds) as (Hs & Hr & Hc & Hd & Hup & _ & HDown).
    assert (Hne : ds <> []) by (intros ->; simpl in Hlen; lia).
    assert (Hneu : us <> []) by (intros ->; simpl in Hlenu; lia).
    set (c1 := snd (run c0 ds)) in *.
    assert (Hus1 : Forall (up_qualifying c1) us).
    { eapply Forall_impl; [|exact Hus].
      intros f. apply up_qualifying_config, Hc. }
    destruct (run_up us c1 Hus1 Hneu) as (Hsu & Hru & Hpu).
    { apply HDown; [assumption | lia]. }
    { rewrite (Hup Hne). destruct Hc as (_ & _ & _ & _ & _ & Hmu). lia. }
    rewrite run_app. cbn [fst snd]. fold c1.
    assert (Hsig : fst (run c0 ds) ++ fst (run c1 us) =
                   repeat false (length ds + length us - 1) ++ [true]).
    { rewrite Hs, Hsu, app_assoc, <- repeat_app.
      do 2 f_equal. destruct us; [easy | cbn [length]; lia]. }
    rewrite Hsig. repeat split.
    + apply count_occ_signals.
    + lia.
    + exact Hpu.
Qed.

Lemma hysteresis_witness :
  (state (snd (run default ([(90, None); (90, None)] ++ [(120, None)]))) = Up /\
   reps (snd (run default ([(90, None); (90, None)] ++ [(120, None)]))) = 0%Z) /\
  (count_occ bool_dec
     (fst (run default ([(90, None); (90, None); (90, None)] ++
                        [(150, None); (150, None); (150, None)]))) true = 1%nat /\
   reps (snd (run default ([(90, None); (90, None); (90, None)] ++
                           [(150, None); (150, None); (150, None)]))) = 1%Z).
Proof.
  destruct (hysteresis 90 15 140 20 3 3 default ltac:(lia) ltac:(lia) eq_refl)
    as [H1 H2].
  split.
  - apply H1.
    + reflexivity.
    + repeat constructor; apply default_down_frame.
    + apply default_transition_frame.
  - destruct (H2 [(90, None); (90, None); (90, None)]
                 [(150, None); (150, None); (150, None)]) as (_ & Hc & Hr & _).
    + reflexivity.
    + repeat constructor; apply default_down_frame.
    + reflexivity.
    + repeat constructor; apply default_up_frame.
    + split; assumption.
Defined.

End CounterClaims.

(** ** Signal filter *)

Section FilterFacts.
Import Py Filters.

Lemma truediv_ok x y : y <> 0 -> truediv x y = Ok (x / y).
Proof. intros H. unfold truediv. now rewrite Reqb_false. Qed.

Lemma truediv_zero x : truediv x 0 = Raise ZeroDivisionError.
Proof. unfold truediv. now rewrite Reqb_true. Qed.

Lemma time_delta_lower now tp : 1e-6 <= time_delta now tp.
Proof. unfold time_delta. rewrite max_Rmax. apply Rmax_l. Qed.

Lemma time_delta_clamped now tp : now <= tp -> time_delta now tp = 1e-6.
Proof.
  intros H. unfold time_delta. rewrite max_Rmax. apply Rmax_left. lra.
Qed.

Lemma inv_time_delta_bounds now tp :
  0 < 1 / time_delta now tp <= 1e6.
Proof.
  pose proof (time_delta_lower now tp) as H.
  assert (Hpos : 0 < time_delta now tp) by lra.
  split.
  - apply Rdiv_lt_0_compat; lra.
  - apply Rmult_le_reg_r with (r := time_delta now tp); [exact Hpos|].
    unfold Rdiv. rewrite Rmult_assoc, Rinv_l by lra. nra.
Qed.

(** With a positive cutoff and a positive frequency none of the three
    divisions of [_alpha] has a zero divisor, and the coefficient is a
    proper smoothing weight. *)
Lemma alpha_ok cutoff fr :
  0 < cutoff -> 0 < fr ->
  exists a, _alpha cutoff fr = Ok a /\ 0 < a <= 1.
Proof.
  intros Hc Hf. pose proof PI_RGT_0 as Hpi.
  assert (H1 : 0 < 2 * PI * cutoff) by nra.
  assert (Htau : 0 < 1 / (2 * PI * cutoff)) by (apply Rdiv_lt_0_compat; lra).
  assert (Hte : 0 < 1 / fr) by (apply Rdiv_lt_0_compat; lra).
  assert (Hq : 0 < 1 / (2 * PI * cutoff) / (1 / fr))
    by (apply Rdiv_lt_0_compat; assumption).
  unfold _alpha.
  rewrite (truediv_ok 1 (2 * PI * cutoff)) by lra. cbn [bind].
  rewrite (truediv_ok 1 fr) by lra. cbn [bind].
  rewrite truediv_ok by lra. cbn [bind].
  rewrite truediv_ok by lra.
  eexists; split; [reflexivity|].
  set (q := 1 / (2 * PI * cutoff) / (1 / fr)) in *.
  split.
  - apply Rdiv_lt_0_compat; lra.
  - apply Rmult_le_reg_r with (r := 1 + q); [lra|].
    unfold Rdiv. rewrite Rmult_assoc, Rinv_l by lra. lra.
Qed.

Lemma exp_smooth_between a x xp :
  0 < a <= 1 ->
  Rmin xp x <= _exp_smooth a x xp <= Rmax xp x.
Proof.
  intros Ha. unfold _exp_smooth, Rmin, Rmax.
  destruct (Rle_dec xp x); split; nra.
Qed.

End FilterFacts.

Section FilterFloatClaims.
Import Py FiltersF PrimFloat.
Local Open Scope float_scope.

(** C6 as stated fails on binary64 numbers: a default-configured filter
    (cutoffs 1, beta 0) fed the finite samples [-1e308] at time 0 and
    [1e308] at time 1 returns NaN on its second call.  The difference of
    the samples overflows to infinity, [beta * abs dx_hat] is 0 times
    infinity, and the NaN cutoff reaches the output. *)
Lemma filter_returns_nan_counterexample :
  is_finite huge = true /\
  is_finite (- huge) = true /\
  exists f0 f1 f2 y,
    init 120 1 0 1 = Ok f0 /\
    call f0 (- huge) (Some 0) 0 = Ok (- huge, f1) /\
    call f1 huge (Some 1) 0 = Ok (y, f2) /\
    is_nan y = true.
Proof.
  split; [vm_compute; reflexivity|]. split; [vm_compute; reflexivity|].
  eexists; eexists; eexists; eexists.
  split; [reflexivity|]. split; [reflexivity|].
  split; [vm_compute; reflexivity | vm_compute; reflexivity].
Qed.

End FilterFloatClaims.

Section FilterClaims.
Import Py Filters.

(** C9: on a filter whose timestamp is still unset, the call returns the raw
    value unchanged, stores it as the previous filtered value and stores 0
    as the previous derivative. *)
Theorem first_call_cold_start : forall self x t clock,
  t_prev self = None ->
  exists self',
    call self x t clock = Ok (x, self') /\
    x_prev self' = Some x /\
    dx_prev self' = Some 0 /\
    t_prev self' = Some (match t with None => clock | Some t' => t' end) /\
    freq self' = freq self /\ min_cutoff self' = min_cutoff self /\
    beta self' = beta self /\ d_cutoff self' = d_cutoff self.
Proof.
  intros self x t clock Hnone. unfold call. rewrite Hnone.
  eexists; split; [reflexivity|]. cbn. repeat split.
Qed.

Lemma first_call_cold_start_witness :
  exists self',
    call (mkFilter 120 1 0 1 None None None) 0.5 (Some 10) 0 = Ok (0.5, self') /\
    x_prev self' = Some 0.5 /\
    dx_prev self' = Some 0 /\
    t_prev self' = Some 10 /\
    freq self' = 120 /\ min_cutoff self' = 1 /\
    beta self' = 0 /\ d_cutoff self' = 1.
Proof.
  apply (first_call_cold_start (mkFilter 120 1 0 1 None None None)
           0.5 (Some 10) 0).
  reflexivity.
Defined.

(** C6, amended: on every call after the first, whatever the new timestamp,
    the time delta is [max(1e-6, now - t_prev)], at least [1e-6] (exactly
    [1e-6] when the timestamp equals or precedes the stored one).  Over the
    reals the frequency [1 / dt] the call works with is therefore defined
    and lies in (0, 1e6], and with positive cutoffs and a non-negative
    [beta] no division of the call has a zero divisor: both smoothing
    weights are computed from that frequency, and the call returns and
    stores [a * x + (1 - a) * x_prev] with a weight [a] in (0, 1].  Nothing
    is said about the binary64 value, which overflow can turn into NaN. *)
Theorem time_delta_is_clamped : forall self x t clock xp dp tp,
  x_prev self = Some xp -> dx_prev self = Some dp -> t_prev self = Some tp ->
  valid_config self ->
  let now := match t with None => clock | Some t' => t' end in
  let dt := time_delta now tp in
  let fr := 1 / dt in
  1e-6 <= dt /\
  (now <= tp -> dt = 1e-6) /\
  (1e-6 <= now - tp -> dt = now - tp) /\
  truediv 1 dt = Ok fr /\
  0 < fr <= 1e6 /\
  exists a_d a,
    _alpha (d_cutoff self) fr = Ok a_d /\
    _alpha (min_cutoff self
            + beta self * Rabs (_exp_smooth a_d ((x - xp) * fr) dp)) fr
      = Ok a /\
    0 < a <= 1 /\
    call self x t clock =
      Ok (_exp_smooth a x xp,
          store self (_exp_smooth a x xp)
                (_exp_smooth a_d ((x - xp) * fr) dp) now).
Proof.
  intros self x t clock xp dp tp Hx Hd Ht (Hmc & Hdc & Hb) now dt fr.
  pose proof (time_delta_lower now tp) as Hlow.
  pose proof (inv_time_delta_bounds now tp) as Hfreq.
  fold dt in Hlow, Hfreq. fold fr in Hfreq.
  assert (Hdiv : truediv 1 dt = Ok fr) by (apply truediv_ok; lra).
  split; [exact Hlow|]. split; [apply time_delta_clamped|].
  split.
  { intros Hge. unfold dt, time_delta. rewrite max_Rmax.
    now apply Rmax_right. }
  split; [exact Hdiv|]. split; [exact Hfreq|].
  destruct (alpha_ok (d_cutoff self) fr) as (a_d & Had & _);
    [assumption | tauto |].
  set (dx_hat := _exp_smooth a_d ((x - xp) * fr) dp).
  assert (Hcut : 0 < min_cutoff self + beta self * Rabs dx_hat).
  { pose proof (Rabs_pos dx_hat). nra. }
  destruct (alpha_ok _ fr Hcut) as (a & Ha & Hrange); [tauto|].
  exists a_d, a. fold dx_hat.
  split; [exact Had|]. split; [exact Ha|]. split; [exact Hrange|].
  unfold call. rewrite Ht, Hx, Hd. fold now. fold dt.
  rewrite Hdiv. cbn [bind as_float].
  rewrite Had. cbn [bind]. fold dx_hat.
  rewrite Ha. cbn [bind]. reflexivity.
Qed.

Lemma time_delta_is_clamped_witness :
  let self := mkFilter 120 1 0 1 (Some 0.5) (Some 0) (Some 10) in
  let dt := time_delta 9 10 in
  let fr := 1 / dt in
  1e-6 <= dt /\
  (9 <= 10 -> dt = 1e-6) /\
  (1e-6 <= 9 - 10 -> dt = 9 - 10) /\
  truediv 1 dt = Ok fr /\
  0 < fr <= 1e6 /\
  exists a_d a,
    _alpha 1 fr = Ok a_d /\
    _alpha (1 + 0 * Rabs (_exp_smooth a_d ((0.7 - 0.5) * fr) 0)) fr = Ok a /\
    0 < a <= 1 /\
    call self 0.7 (Some 9) 0 =
      Ok (_exp_smooth a 0.7 0.5,
          store self (_exp_smooth a 0.7 0.5)
                (_exp_smooth a_d ((0.7 - 0.5) * fr) 0) 9).
Proof.
  apply (time_delta_is_clamped
           (mkFilter 120 1 0 1 (Some 0.5) (Some 0) (Some 10))
           0.7 (Some 9) 0 0.5 0 10);
    try reflexivity.
  unfold valid_config; cbn. lra.
Defined.

(** Without the positivity of the cutoffs the failure comes late: a filter
    built with [min_cutoff = 0] and [beta = 0] accepts its first sample and
    raises [ZeroDivisionError] on the second. *)
Lemma zero_cutoff_raises_on_second_call :
  exists f0 f1,
    init 120 0 0 1 = Ok f0 /\
    call f0 1 (Some 0) 0 = Ok (1, f1) /\
    call f1 2 (Some 1) 0 = Raise ZeroDivisionError.
Proof.
  eexists; eexists. split; [reflexivity|]. split; [reflexivity|].
  unfold call; cbn [t_prev x_prev dx_prev store d_cutoff min_cutoff beta as_float].
  assert (Hdt : time_delta 1 0 = 1).
  { unfold time_delta. rewrite max_Rmax, Rmax_right by lra. lra. }
  rewrite Hdt. rewrite truediv_ok by lra. cbn [bind].
  destruct (alpha_ok 1 (1 / 1)) as (a & Ha & _); [lra | lra |].
  rewrite Ha. cbn [bind].
  unfold _alpha.
  replace (2 * PI * (0 + 0 * Rabs (_exp_smooth a ((2 - 1) * (1 / 1)) 0)))
    with 0 by ring.
  now rewrite truediv_zero.
Qed.

(** C2 as stated fails: both constructors accept non-positive values. *)
Lemma construction_fails_fast_counterexample :
  Filters.init 120 (-1) 0 0 = Ok (mkFilter 120 (-1) 0 0 None None None) /\
  Counter.init 90 (-15) 0 (-20) 0 (-3) =
    Ok (Counter.mkCounter Counter.Up 0 0 0 90 (-15) 0 (-20) 0 (-3)).
Proof. split; reflexivity. Qed.

(** C2, amended: construction never raises; for every configuration value,
    valid or not, both constructors succeed and store the values as given,
    with the filter uninitialized and the counter in phase [Up] at zero. *)
Theorem construction_never_validates :
  (forall fr mc b dc, exists f,
     Filters.init fr mc b dc = Ok f /\
     freq f = fr /\ min_cutoff f = mc /\ beta f = b /\ d_cutoff f = dc /\
     x_prev f = None /\ dx_prev f = None /\ t_prev f = None) /\
  (forall da tol up par mdf muf, exists c,
     Counter.init da tol up par mdf muf = Ok c /\
     Counter.down_angle c = da /\ Counter.angle_tolerance c = tol /\
     Counter.up_th c = up /\ Counter.parallel_th c = par /\
     Counter.min_down_frames c = mdf /\ Counter.min_up_frames c = muf /\
     Counter.state c = Counter.Up /\ Counter.reps c = 0%Z /\
     Counter.down_frames c = 0%Z /\ Counter.up_frames c = 0%Z).
Proof.
  split; intros; eexists; (split; [reflexivity|]); cbn; repeat split.
Qed.

End FilterClaims.

(** ** Geometry *)

Section GeometryFacts.
Import Py Geometry.

Lemma norm_nonneg u : 0 <= norm u.
Proof. apply sqrt_pos. Qed.

Lemma norm_sqr u : norm u * norm u = fst u * fst u + snd u * snd u.
Proof. unfold norm. apply sqrt_sqrt. nra. Qed.

(** Cauchy-Schwarz in the plane. *)
Lemma dot_le_norms u v : Rabs (dot u v) <= norm u * norm v.
Proof.
  pose proof (norm_nonneg u) as Hu. pose proof (norm_nonneg v) as Hv.
  pose proof (norm_sqr u) as Hu2. pose proof (norm_sqr v) as Hv2.
  destruct u as [x1 y1], v as [x2 y2]; cbn [fst snd] in *.
  set (nu := norm (x1, y1)) in *. set (nv := norm (x2, y2)) in *.
  unfold dot; cbn [fst snd].
  assert (Hsq : (x1 * x2 + y1 * y2) * (x1 * x2 + y1 * y2)
                <= (nu * nv) * (nu * nv)).
  { replace (nu * nv * (nu * nv)) with ((nu * nu) * (nv * nv)) by ring.
    rewrite Hu2, Hv2.
    pose proof (Rle_0_sqr (x1 * y2 - y1 * x2)) as H. unfold Rsqr in H. nra. }
  assert (Hp : 0 <= nu * nv) by nra.
  unfold Rabs. destruct (Rcase_abs _); nra.
Qed.

Lemma cosine_in_range u v :
  0 < norm u -> 0 < norm v ->
  -1 <= dot u v / (norm u * norm v) <= 1.
Proof.
  intros Hu Hv. pose proof (dot_le_norms u v) as H.
  assert (Hp : 0 < norm u * norm v) by nra.
  assert (Hd : - (norm u * norm v) <= dot u v <= norm u * norm v).
  { revert H. unfold Rabs. destruct (Rcase_abs _); lra. }
  split.
  - apply Rmult_le_reg_r with (r := norm u * norm v); [exact Hp|].
    unfold Rdiv. rewrite Rmult_assoc, Rinv_l by lra. lra.
  - apply Rmult_le_reg_r with (r := norm u * norm v); [exact Hp|].
    unfold Rdiv. rewrite Rmult_assoc, Rinv_l by lra. lra.
Qed.

Lemma degrees_acos_range x : 0 <= degrees (acos x) <= 180.
Proof.
  pose proof (acos_bound x) as [H0 H1]. pose proof PI_RGT_0 as Hpi.
  unfold degrees.
  assert (Hk : 0 < 180 / PI) by (apply Rdiv_lt_0_compat; lra).
  split; [nra|].
  replace 180 with (PI * (180 / PI)) at 2 by (field; lra).
  apply Rmult_le_compat_r; lra.
Qed.

Lemma angle_degenerate a b c :
  norm (sub a b) < 1e-9 \/ norm (sub c b) < 1e-9 -> angle a b c = 0.
Proof.
  intros H. unfold angle.
  destruct H as [H | H].
  - now rewrite (Rltb_true _ _ H).
  - rewrite (Rltb_true _ _ H). now rewrite orb_true_r.
Qed.

Lemma angle_regular a b c :
  1e-9 <= norm (sub a b) -> 1e-9 <= norm (sub c b) ->
  angle a b c =
  degrees (acos (Rmax (-1) (Rmin 1
    (dot (sub a b) (sub c b) / (norm (sub a b) * norm (sub c b)))))).
Proof.
  intros Ha Hc. unfold angle.
  rewrite (Rltb_false (norm (sub a b))) by lra.
  rewrite (Rltb_false (norm (sub c b))) by lra.
  cbn [orb]. now rewrite max_Rmax, min_Rmin.
Qed.

Lemma norm_unit_x : norm (1, 0) = 1.
Proof.
  unfold norm; cbn [fst snd].
  replace (1 * 1 + 0 * 0) with 1 by ring. apply sqrt_1.
Qed.

Lemma norm_unit_y : norm (0, 1) = 1.
Proof.
  unfold norm; cbn [fst snd].
  replace (0 * 0 + 1 * 1) with 1 by ring. apply sqrt_1.
Qed.

Lemma norm_neg_unit_x : norm (-1, 0) = 1.
Proof.
  unfold norm; cbn [fst snd].
  replace (-1 * -1 + 0 * 0) with 1 by ring. apply sqrt_1.
Qed.

Lemma sub_origin p : sub p (0, 0) = p.
Proof.
  destruct p as [x y]. unfold sub; cbn [fst snd]. f_equal; ring.
Qed.

Lemma sub_self p : sub p p = (0, 0).
Proof. unfold sub. f_equal; ring. Qed.

Lemma norm_origin : norm (0, 0) = 0.
Proof.
  unfold norm; cbn [fst snd].
  replace (0 * 0 + 0 * 0) with 0 by ring. apply sqrt_0.
Qed.

Lemma angle_right : angle (1, 0) (0, 0) (0, 1) = 90.
Proof.
  rewrite angle_regular; rewrite !sub_origin, ?norm_unit_x, ?norm_unit_y;
    try lra.
  unfold dot; cbn [fst snd].
  replace ((1 * 0 + 0 * 1) / (1 * 1)) with 0 by (field; lra).
  rewrite Rmin_right, Rmax_right by lra.
  rewrite acos_0. unfold degrees. field. apply PI_neq0.
Qed.

Lemma angle_straight : angle (-1, 0) (0, 0) (1, 0) = 180.
Proof.
  rewrite angle_regular; rewrite !sub_origin, ?norm_unit_x, ?norm_neg_unit_x;
    try lra.
  unfold dot; cbn [fst snd].
  replace ((-1 * 1 + 0 * 0) / (1 * 1)) with (-1) by (field; lra).
  rewrite Rmin_right, Rmax_left by lra.
  replace (-1) with (- (1)) by ring.
  rewrite acos_opp, acos_1. unfold degrees. field. apply PI_neq0.
Qed.

Lemma angle_same_point p q : angle p p q = 0.
Proof.
  apply angle_degenerate. left. rewrite sub_self, norm_origin. lra.
Qed.

End GeometryFacts.

Section GeometryClaims.
Import Py Geometry.

(** C8: [angle a b c] lies in [0, 180]; when a ray from [b] is shorter than
    [1e-9] the result is 0; otherwise it is the inverse cosine, in degrees,
    of the normalized dot product clamped to [-1, 1], which is the angle at
    [b] (its cosine is the normalized dot product).  The three reference
    values are 90, 180 and 0. *)
Theorem angle_correct : forall a b c,
  0 <= angle a b c <= 180 /\
  (norm (sub a b) < 1e-9 \/ norm (sub c b) < 1e-9 -> angle a b c = 0) /\
  (1e-9 <= norm (sub a b) -> 1e-9 <= norm (sub c b) ->
   angle a b c =
     degrees (acos (Rmax (-1) (Rmin 1
       (dot (sub a b) (sub c b) / (norm (sub a b) * norm (sub c b)))))) /\
   cos (angle a b c * (PI / 180)) =
     dot (sub a b) (sub c b) / (norm (sub a b) * norm (sub c b))) /\
  angle (1, 0) (0, 0) (0, 1) = 90 /\
  angle (-1, 0) (0, 0) (1, 0) = 180 /\
  (forall p q, angle p p q = 0).
Proof.
  intros a b c.
  split; [|split; [|split; [|split; [|split]]]].
  - destruct (Rlt_dec (norm (sub a b)) 1e-9) as [Ha | Ha].
    { rewrite angle_degenerate by (now left). lra. }
    destruct (Rlt_dec (norm (sub c b)) 1e-9) as [Hc | Hc].
    { rewrite angle_degenerate by (now right). lra. }
    rewrite angle_regular by lra. apply degrees_acos_range.
  - apply angle_degenerate.
  - intros Ha Hc. split; [now apply angle_regular|].
    rewrite angle_regular by assumption.
    pose proof (cosine_in_range (sub a b) (sub c b)) as Hr.
    destruct Hr as [Hlo Hhi]; [lra | lra |].
    rewrite Rmin_right, Rmax_right by lra.
    unfold degrees.
    replace (acos _ * (180 / PI) * (PI / 180)) with
      (acos (dot (sub a b) (sub c b) / (norm (sub a b) * norm (sub c b))))
      by (field; apply PI_neq0).
    apply cos_acos. lra.
  - exact angle_right.
  - exact angle_straight.
  - exact angle_same_point.
Qed.

Lemma angle_correct_witness :
  (angle (3, 4) (0, 0) (0, 0) = 0) /\
  (angle (1, 0) (0, 0) (0, 1) =
     degrees (acos (Rmax (-1) (Rmin 1
       (dot (sub (1, 0) (0, 0)) (sub (0, 1) (0, 0))
        / (norm (sub (1, 0) (0, 0)) * norm (sub (0, 1) (0, 0))))))) /\
   cos (angle (1, 0) (0, 0) (0, 1) * (PI / 180)) =
     dot (sub (1, 0) (0, 0)) (sub (0, 1) (0, 0))
     / (norm (sub (1, 0) (0, 0)) * norm (sub (0, 1) (0, 0)))).
Proof.
  split.
  - destruct (angle_correct (3, 4) (0, 0) (0, 0)) as (_ & Hdeg & _).
    apply Hdeg. right. rewrite sub_self, norm_origin. lra.
  - destruct (angle_correct (1, 0) (0, 0) (0, 1)) as (_ & _ & Hreg & _).
    apply Hreg.
    + rewrite sub_origin, norm_unit_x. lra.
    + rewrite sub_origin, norm_unit_y. lra.
Defined.

End GeometryClaims.

(** ** Quality scorer *)

Section NumpyFacts.
Import Py.

(** [np.interp] on two sample points, branch by branch. *)
Lemma interp_two_points x x0 y0 x1 y1 :
  Np.interp x [x0; x1] [y0; y1] =
  if Rgtb x x1 then y1
  else if Rltb x x0 then y0
  else if Rgeb x x1 then y1
  else if Reqb x0 x then y0
  else (y1 - y0) / (x1 - x0) * (x - x0) + y0.
Proof.
  unfold Np.interp, Np.binary_search.
  cbn [length nth tl Nat.eqb Nat.sub Np.scan].
  destruct (Rgtb x x1); [reflexivity|].
  destruct (Rltb x x0); [reflexivity|].
  destruct (Rgeb x x1); [reflexivity|].
  change (Z.to_nat (1 - 1)) with 0%nat. cbn [nth].
  destruct (Reqb x0 x); reflexivity.
Qed.

Lemma lerp_clamped_left x x0 y0 x1 y1 :
  x0 < x1 -> x <= x0 -> Scorer.lerp_clamped x x0 y0 x1 y1 = y0.
Proof.
  intros Hlt Hx. unfold Scorer.lerp_clamped.
  assert (Ht : (x - x0) / (x1 - x0) * (x1 - x0) = x - x0) by (field; lra).
  set (t := (x - x0) / (x1 - x0)) in *.
  rewrite Rmax_left by nra. rewrite Rmin_right by lra. ring.
Qed.

Lemma lerp_clamped_right x x0 y0 x1 y1 :
  x0 < x1 -> x1 <= x -> Scorer.lerp_clamped x x0 y0 x1 y1 = y1.
Proof.
  intros Hlt Hx. unfold Scorer.lerp_clamped.
  assert (Ht : (x - x0) / (x1 - x0) * (x1 - x0) = x - x0) by (field; lra).
  set (t := (x - x0) / (x1 - x0)) in *.
  rewrite (Rmax_right 0 t) by nra. rewrite Rmin_left by nra. ring.
Qed.

Lemma lerp_clamped_inside x x0 y0 x1 y1 :
  x0 < x1 -> x0 <= x <= x1 ->
  Scorer.lerp_clamped x x0 y0 x1 y1 = (y1 - y0) / (x1 - x0) * (x - x0) + y0.
Proof.
  intros Hlt Hx. unfold Scorer.lerp_clamped.
  assert (Ht : (x - x0) / (x1 - x0) * (x1 - x0) = x - x0) by (field; lra).
  set (t := (x - x0) / (x1 - x0)) in *.
  rewrite (Rmax_right 0 t) by nra. rewrite Rmin_right by nra.
  unfold t. field. lra.
Qed.

(** On two increasing sample points [np.interp] is the clamped linear
    interpolation. *)
Lemma interp_increasing x x0 y0 x1 y1 :
  x0 < x1 ->
  Np.interp x [x0; x1] [y0; y1] = Scorer.lerp_clamped x x0 y0 x1 y1.
Proof.
  intros Hlt. rewrite interp_two_points. unfold Rgtb, Rgeb.
  destruct (Rlt_dec x1 x) as [H1 | H1].
  { rewrite Rltb_true by assumption. rewrite lerp_clamped_right; lra. }
  rewrite Rltb_false by assumption.
  destruct (Rlt_dec x x0) as [H0 | H0].
  { rewrite Rltb_true by assumption. rewrite lerp_clamped_left; lra. }
  rewrite Rltb_false by assumption.
  destruct (Rle_dec x1 x) as [H2 | H2].
  { rewrite Rleb_true by assumption. rewrite lerp_clamped_right; lra. }
  rewrite Rleb_false by assumption.
  destruct (Req_dec_T x0 x) as [H3 | H3].
  { rewrite Reqb_true by assumption. rewrite lerp_clamped_left; lra. }
  rewrite Reqb_false by assumption.
  rewrite lerp_clamped_inside; lra.
Qed.

(** On two decreasing sample points [np.interp] never interpolates: the
    first range check sends every [x] above the last sample point to the
    right fill value, the second sends the rest to the left fill value. *)
Lemma interp_decreasing x x0 y0 x1 y1 :
  x1 < x0 ->
  Np.interp x [x0; x1] [y0; y1] = if Rltb x1 x then y1 else y0.
Proof.
  intros Hlt. rewrite interp_two_points. unfold Rgtb.
  destruct (Rlt_dec x1 x) as [H1 | H1].
  { now rewrite Rltb_true by assumption. }
  rewrite Rltb_false by assumption.
  now rewrite (Rltb_true x x0) by lra.
Qed.

Lemma clip_range x : 0 <= Np.clip x 0 100 <= 100.
Proof.
  unfold Np.clip, Rmin, Rmax.
  destruct (Rle_dec x 0); destruct (Rle_dec _ 100); lra.
Qed.

Lemma round_half_even_range y n :
  (0 <= n)%Z -> 0 <= y <= IZR n ->
  (0 <= round_half_even y <= n)%Z.
Proof.
  intros Hn [H0 H1]. unfold round_half_even.
  destruct (base_Int_part y) as [Hf1 Hf2].
  set (f := Int_part y) in *.
  assert (Hf0 : (0 <= f)%Z).
  { assert (-1 < f)%Z by (apply lt_IZR; lra). lia. }
  assert (Hfn : (f <= n)%Z) by (apply le_IZR; lra).
  assert (Hstep : y - IZR f > 0 -> (f + 1 <= n)%Z).
  { intros Hd. assert (f < n)%Z by (apply lt_IZR; lra). lia. }
  destruct (Rltb (y - IZR f) (1 / 2)) eqn:E1; [lia|].
  assert (Hhalf : ~ y - IZR f < 1 / 2).
  { intros Hc. rewrite (Rltb_true _ _ Hc) in E1. discriminate. }
  destruct (Rltb (1 / 2) (y - IZR f)); [split; [lia | apply Hstep; lra]|].
  destruct (Z.even f); [lia | split; [lia | apply Hstep; lra]].
Qed.

(** Rounding to one decimal keeps a score inside [0, 100]. *)
Lemma round_score_range x : 0 <= x <= 100 -> 0 <= round x 1 <= 100.
Proof.
  intros Hx. unfold round.
  replace (10 ^ 1) with 10 by (simpl; ring).
  destruct (round_half_even_range (x * 10) 1000 ltac:(lia)) as [Hlo Hhi].
  { lra. }
  apply IZR_le in Hlo, Hhi.
  set (r := IZR (round_half_even (x * 10))) in *.
  lra.
Qed.

End NumpyFacts.

Section ScorerFacts.
Import Py Scorer.

Lemma max_epsilon_nonzero target : max 1e-6 target <> 0.
Proof.
  rewrite max_Rmax. pose proof (Rmax_l 1e-6 target). lra.
Qed.

Lemma tempo_ok measured target :
  exists v, tempo measured target = Ok v.
Proof.
  unfold tempo. rewrite truediv_ok by apply max_epsilon_nonzero.
  cbn [bind]. now eexists.
Qed.

(** With a non-zero frame rate [finalize] on a non-empty buffer returns a
    result whose breakdown holds the six clipped sub-scores and whose score
    is the rounded weighted sum of them. *)
Lemma finalize_nonempty m ms tds tus fps :
  fps <> 0 ->
  exists rom depth body tempo_score stab sym down_s up_s,
    finalize (m :: ms) tds tus fps =
    Ok {| score :=
            round (0.35 * Np.clip rom 0 100 + 0.15 * Np.clip depth 0 100
                   + 0.20 * Np.clip body 0 100 + 0.10 * Np.clip tempo_score 0 100
                   + 0.10 * Np.clip stab 0 100 + 0.10 * Np.clip sym 0 100) 1;
          breakdown :=
            [("ROM"%string, Np.clip rom 0 100);
             ("Depth"%string, Np.clip depth 0 100);
             ("BodyLine"%string, Np.clip body 0 100);
             ("Tempo"%string, Np.clip tempo_score 0 100);
             ("Stability"%string, Np.clip stab 0 100);
             ("Symmetry"%string, Np.clip sym 0 100);
             ("down_seconds"%string, round down_s 2);
             ("up_seconds"%string, round up_s 2)];
          notes := None |} /\
    rom = ROM (m :: ms).
Proof.
  intros Hfps. unfold finalize.
  rewrite !truediv_ok by assumption. cbn [bind].
  destruct (tempo_ok (IZR (Z.max (Z.of_nat (min_idx (m :: ms))) 1) / fps) tds)
    as [td Htd].
  rewrite Htd. cbn [bind].
  destruct (tempo_ok
              (IZR (Z.max (Z.of_nat (length (m :: ms)) - 1
                           - Z.of_nat (min_idx (m :: ms))) 1) / fps) tus)
    as [tu Htu].
  rewrite Htu. cbn [bind].
  do 8 eexists. split; reflexivity.
Qed.

Lemma weighted_sum_range a b c d e f :
  0 <= a <= 100 -> 0 <= b <= 100 -> 0 <= c <= 100 ->
  0 <= d <= 100 -> 0 <= e <= 100 -> 0 <= f <= 100 ->
  0 <= 0.35 * a + 0.15 * b + 0.20 * c + 0.10 * d + 0.10 * e + 0.10 * f <= 100.
Proof. intros. lra. Qed.

Lemma lerp_clamped_bottom_at_90 : lerp_clamped 90 110 0 70 100 = 50.
Proof.
  unfold lerp_clamped.
  replace ((90 - 110) / (70 - 110)) with (1 / 2) by (field; lra).
  rewrite Rmax_right by lra. rewrite Rmin_right by lra. lra.
Qed.

Lemma min_same x : min x x = x.
Proof. unfold min. now destruct (Rltb x x). Qed.

Lemma max_same x : max x x = x.
Proof. unfold max. now destruct (Rgtb x x). Qed.

End ScorerFacts.

Section ScorerClaims.
Import Py Scorer.

(** C7: on an empty buffer [finalize] returns, without raising, score 0, an
    empty breakdown and the single note "No frames captured", whatever the
    targets and the frame rate. *)
Theorem finalize_empty_buffer : forall tds tus fps,
  finalize [] tds tus fps =
  Ok {| score := 0; breakdown := [];
        notes := Some ["No frames captured"%string] |}.
Proof. reflexivity. Qed.

(** C5: for a non-empty buffer of arbitrary real metrics and positive frame
    rate and target durations, [finalize] returns a result in which each of
    the six sub-scores is present and lies in [0, 100], and the final score
    lies in [0, 100]. *)
Theorem finalize_scores_bounded : forall frames tds tus fps,
  frames <> [] -> 0 < fps -> 0 < tds -> 0 < tus ->
  exists r,
    finalize frames tds tus fps = Ok r /\
    (forall k, In k sub_scores ->
       exists v, dict_get k (breakdown r) = Some v /\ 0 <= v <= 100) /\
    0 <= score r <= 100.
Proof.
  intros [|m ms] tds tus fps Hne Hfps Htds Htus; [contradiction|].
  destruct (finalize_nonempty m ms tds tus fps)
    as (rom & depth & body & tmp & stab & sym & ds & us & Hfin & _); [lra|].
  eexists. split; [exact Hfin|]. cbn [breakdown score]. split.
  - intros k Hk. unfold sub_scores in Hk. cbn [In] in Hk.
    decompose [or] Hk; subst; try contradiction;
      (eexists; split; [reflexivity | apply clip_range]).
  - apply round_score_range.
    apply weighted_sum_range; apply clip_range.
Qed.

Lemma finalize_scores_bounded_witness :
  exists r,
    finalize [mkFrame 90 88 0.5 0.45 5; mkFrame 150 152 0.4 0.45 4] 2 1 30
      = Ok r /\
    (forall k, In k sub_scores ->
       exists v, dict_get k (breakdown r) = Some v /\ 0 <= v <= 100) /\
    0 <= score r <= 100.
Proof.
  apply (finalize_scores_bounded
           [mkFrame 90 88 0.5 0.45 5; mkFrame 150 152 0.4 0.45 4] 2 1 30).
  - discriminate.
  - lra.
  - lra.
  - lra.
Defined.

(** C1 against the code: the bottom score is not an interpolation.  The
    sample points [110; 70] are decreasing, so [np.interp] returns 100 for
    every minimum elbow angle above 70 and 0 otherwise; at a minimum elbow
    angle of 90 the code gives 100 where the interpolation gives 50, and
    the ROM sub-score reported by [finalize] is 60 instead of 30.  The top
    score and the 0.6/0.4 combination are as described. *)
Theorem rom_bottom_score_is_a_step :
  (forall frames,
     rom_bottom_score frames =
     if Rltb 70 (min (Np.amin (eL frames)) (Np.amin (eR frames)))
     then 100 else 0) /\
  rom_bottom_score [mkFrame 90 90 0 0 0] = 100 /\
  lerp_clamped 90 110 0 70 100 = 50 /\
  (exists r, finalize [mkFrame 90 90 0 0 0] 2 1 30 = Ok r /\
             dict_get "ROM" (breakdown r) = Some 60) /\
  (forall frames,
     rom_top_score frames =
     lerp_clamped (max (Np.amax (eL frames)) (Np.amax (eR frames)))
                  120 0 160 100) /\
  (forall frames,
     ROM frames = 0.6 * rom_bottom_score frames + 0.4 * rom_top_score frames).
Proof.
  assert (Hstep : forall frames,
     rom_bottom_score frames =
     if Rltb 70 (min (Np.amin (eL frames)) (Np.amin (eR frames)))
     then 100 else 0).
  { intros frames. unfold rom_bottom_score. apply interp_decreasing. lra. }
  assert (Htop : forall frames,
     rom_top_score frames =
     lerp_clamped (max (Np.amax (eL frames)) (Np.amax (eR frames)))
                  120 0 160 100).
  { intros frames. unfold rom_top_score. apply interp_increasing. lra. }
  assert (Hb90 : rom_bottom_score [mkFrame 90 90 0 0 0] = 100).
  { rewrite Hstep. cbn [eL eR map elbowL elbowR Np.amin fold_left].
    rewrite min_same. now rewrite Rltb_true by lra. }
  repeat split.
  - exact Hstep.
  - exact Hb90.
  - exact lerp_clamped_bottom_at_90.
  - destruct (finalize_nonempty (mkFrame 90 90 0 0 0) [] 2 1 30)
      as (rom & depth & body & tmp & stab & sym & ds & us & Hfin & Hrom);
      [lra|].
    eexists. split; [exact Hfin|]. cbn [breakdown dict_get String.eqb].
    cbn. f_equal. rewrite Hrom. unfold ROM. rewrite Hb90, Htop.
    cbn [eL eR map elbowL elbowR Np.amax fold_left].
    rewrite max_same. rewrite lerp_clamped_left by lra.
    unfold Np.clip. rewrite Rmax_left by lra. rewrite Rmin_left by lra. lra.
  - exact Htop.
Qed.

End ScorerClaims.

(** * Further properties *)

(** ** Repetition state machine *)

Section CounterMoreFacts.
Import Py Counter CounterMore.

Lemma update_signal_spec c e d :
  (fst (update c e d) = true <->
   state c = Down /\ state (snd (update c e d)) = Up) /\
  reps (snd (update c e d)) =
    (reps c + if fst (update c e d) then 1 else 0)%Z.
Proof.
  unfold update.
  destruct (in_down_position c e d).
  - destruct (state c) eqn:Est; cbn [phase_eqb andb];
      [destruct (min_down_frames c <=? down_frames c + 1)%Z|];
      cbn [fst snd state reps set_down]; rewrite ?Est;
      (split; [split; [discriminate | intros [? ?]; discriminate] | lia]).
  - destruct (Rgtb e (up_th c)).
    + destruct (state c) eqn:Est; cbn [phase_eqb andb];
        [|destruct (min_up_frames c <=? up_frames c + 1)%Z];
        cbn [fst snd state reps set_up]; rewrite ?Est;
        (split; [split; [try discriminate; auto | intros [? ?]; auto; discriminate] | lia]).
    + cbn [fst snd state reps set_frames].
      split; [split; [discriminate|] | lia].
      intros [H1 H2]. rewrite H1 in H2. discriminate.
Qed.

(** X1: [update] signals a completed repetition exactly when it moves the
    phase from [Down] to [Up], and the cumulative count grows by one on a
    signal and is unchanged otherwise. *)
Theorem signal_iff_down_to_up : forall c e d,
  (fst (update c e d) = true <->
   state c = Down /\ state (snd (update c e d)) = Up) /\
  reps (snd (update c e d)) =
    (reps c + if fst (update c e d) then 1 else 0)%Z.
Proof. exact update_signal_spec. Qed.

(** X2: over any sequence of frames, one signal comes back per frame and the
    cumulative count grows by the number of [True] signals. *)
Theorem reps_counts_signals : forall fs c,
  length (fst (run c fs)) = length fs /\
  reps (snd (run c fs)) =
    (reps c + Z.of_nat (count_occ bool_dec (fst (run c fs)) true))%Z.
Proof.
  induction fs as [|[e d] fs IH]; intros c.
  - cbn. split; [reflexivity | lia].
  - cbn [run].
    pose proof (signal_step := proj2 (update_signal_spec c e d)).
    destruct (update c e d) as [sig c1]; cbn [fst snd] in signal_step.
    destruct (IH c1) as [Hlen Hreps].
    destruct (run c1 fs) as [sigs c2]; cbn [fst snd] in *.
    split; [cbn [length]; now rewrite Hlen|].
    rewrite Hreps, signal_step.
    destruct sig; cbn [count_occ]; destruct (bool_dec _ _); try discriminate;
      try contradiction; lia.
Qed.

Lemma run_same_config fs : forall c, same_config c (snd (run c fs)).
Proof.
  induction fs as [|[e d] fs IH]; intros c.
  - apply same_config_refl.
  - cbn [run]. pose proof (update_same_config c e d) as H1.
    destruct (update c e d) as [sig c1]; cbn [snd] in H1.
    specialize (IH c1). destruct (run c1 fs) as [sigs c2]; cbn [snd] in *.
    eapply same_config_trans; eassumption.
Qed.

(** X3: no sequence of [update] calls changes a threshold, so a frame
    qualifies as down or up after the sequence exactly as before it. *)
Theorem run_keeps_config : forall fs c,
  same_config c (snd (run c fs)) /\
  (forall e d, in_down_position (snd (run c fs)) e d = in_down_position c e d) /\
  up_th (snd (run c fs)) = up_th c.
Proof.
  intros fs c. pose proof (run_same_config fs c) as H.
  split; [exact H|]. split.
  - intros e d. now apply in_down_position_config.
  - apply H.
Qed.

(** X4: the strict mode only ever narrows the down test: a frame that
    qualifies with an alignment value also qualifies without one, and when
    the alignment is within [parallel_th] the two modes take the same
    step. *)
Theorem strict_mode_narrows : forall c e d,
  (in_down_position c e (Some d) = true -> in_down_position c e None = true) /\
  (d <= parallel_th c -> update c e (Some d) = update c e None).
Proof.
  intros c e d. split.
  - unfold in_down_position. intros H. now apply andb_true_iff in H.
  - intros Hd.
    assert (Heq : in_down_position c e (Some d) = in_down_position c e None).
    { unfold in_down_position. rewrite (Rleb_true d) by assumption.
      apply andb_true_r. }
    unfold update. now rewrite Heq.
Qed.

Lemma strict_mode_narrows_witness :
  update default 90 (Some 10) = update default 90 None.
Proof.
  apply (strict_mode_narrows default 90 10). cbn. lra.
Defined.

(** X5: transition-zone frames only decay: after [k] of them both frame
    counters have dropped by [k], stopping at 0, and the phase, the count
    and the signals are untouched. *)
Theorem transition_frames_decay : forall fs c,
  (0 <= down_frames c)%Z -> (0 <= up_frames c)%Z ->
  Forall (transition_zone c) fs ->
  down_frames (snd (run c fs)) =
    Z.max 0 (down_frames c - Z.of_nat (length fs)) /\
  up_frames (snd (run c fs)) =
    Z.max 0 (up_frames c - Z.of_nat (length fs)) /\
  state (snd (run c fs)) = state c /\
  reps (snd (run c fs)) = reps c /\
  fst (run c fs) = repeat false (length fs).
Proof.
  induction fs as [|[e d] fs IH]; intros c Hd Hu Hall.
  - cbn. repeat split; lia.
  - inversion Hall as [|? ? Hf Hfs]; subst.
    cbn [run]. rewrite (update_transition c e d Hf).
    set (c1 := set_frames c _ _).
    assert (Hfs1 : Forall (transition_zone c1) fs).
    { eapply Forall_impl; [|exact Hfs]. intros f [Hn Hup]. split.
      - now rewrite (in_down_position_config c c1) by (repeat split).
      - exact Hup. }
    destruct (IH c1) as (H1 & H2 & H3 & H4 & H5);
      [subst c1; cbn; lia | subst c1; cbn; lia | exact Hfs1 |].
    destruct (run c1 fs) as [sigs c2]; cbn [fst snd] in *.
    subst c1; cbn [down_frames up_frames state reps set_frames] in *.
    cbn [length repeat]. repeat split; try assumption; try lia.
    now rewrite H5.
Qed.

Lemma transition_frames_decay_witness :
  let after_two_down := mkCounter Up 0 2 0 90 15 140 20 3 3 in
  let after_three_up := mkCounter Up 0 0 3 90 15 140 20 3 3 in
  (down_frames (snd (run after_two_down [(120, None)])) = 1%Z /\
   up_frames (snd (run after_two_down [(120, None)])) = 0%Z /\
   state (snd (run after_two_down [(120, None)])) = Up /\
   reps (snd (run after_two_down [(120, None)])) = 0%Z /\
   fst (run after_two_down [(120, None)]) = [false]) /\
  (down_frames (snd (run after_three_up [(120, None); (120, None)])) = 0%Z /\
   up_frames (snd (run after_three_up [(120, None); (120, None)])) = 1%Z /\
   state (snd (run after_three_up [(120, None); (120, None)])) = Up /\
   reps (snd (run after_three_up [(120, None); (120, None)])) = 0%Z /\
   fst (run after_three_up [(120, None); (120, None)]) = [false; false]).
Proof.
  assert (Htz : forall d u,
            transition_zone (mkCounter Up 0 d u 90 15 140 20 3 3) (120, None)).
  { intros d u. unfold transition_zone, in_down_position.
    cbn [fst snd down_angle angle_tolerance up_th]. split.
    - apply Rleb_false. unfold Rabs. destruct (Rcase_abs _); lra.
    - lra. }
  split.
  - apply (transition_frames_decay [(120, None)]
             (mkCounter Up 0 2 0 90 15 140 20 3 3)).
    + cbn. lia.
    + cbn. lia.
    + repeat constructor; apply Htz.
  - apply (transition_frames_decay [(120, None); (120, None)]
             (mkCounter Up 0 0 3 90 15 140 20 3 3)).
    + cbn. lia.
    + cbn. lia.
    + repeat constructor; apply Htz.
Defined.

(** One [update] keeps the pending invariant and adds at most one frame of
    progress. *)
Lemma update_progress c e d :
  (0 < min_down_frames c)%Z -> (0 < min_up_frames c)%Z ->
  pending c ->
  pending (snd (update c e d)) /\
  (progress (snd (update c e d)) <= progress c + 1)%Z.
Proof.
  intros Hmd Hmu (Hd & Hu & Hr & Hph). unfold update, pending, progress.
  destruct (in_down_position c e d); [|destruct (Rgtb e (up_th c))].
  - destruct (state c) eqn:Est; cbn [phase_eqb andb].
    + destruct (Z.leb_spec (min_down_frames c) (down_frames c + 1));
        cbn [snd state reps down_frames up_frames min_down_frames
             min_up_frames set_down]; rewrite ?Est; repeat split; lia.
    + cbn [snd state reps down_frames up_frames min_down_frames
           min_up_frames set_down]; rewrite ?Est; repeat split; lia.
  - destruct (state c) eqn:Est; cbn [phase_eqb andb].
    + cbn [snd state reps down_frames up_frames min_down_frames
           min_up_frames set_up]; rewrite ?Est; repeat split; lia.
    + destruct (Z.leb_spec (min_up_frames c) (up_frames c + 1));
        cbn [snd state reps down_frames up_frames min_down_frames
             min_up_frames set_up]; rewrite ?Est; repeat split; lia.
  - cbn [snd state reps down_frames up_frames min_down_frames
         min_up_frames set_frames].
    destruct (state c); repeat split; lia.
Qed.

Lemma run_progress fs : forall c,
  (0 < min_down_frames c)%Z -> (0 < min_up_frames c)%Z ->
  pending c ->
  pending (snd (run c fs)) /\
  (progress (snd (run c fs)) <= progress c + Z.of_nat (length fs))%Z.
Proof.
  induction fs as [|[e d] fs IH]; intros c Hmd Hmu Hp.
  - cbn [run snd length]. split; [assumption | lia].
  - cbn [run].
    destruct (update_progress c e d Hmd Hmu Hp) as [Hp1 Hle1].
    destruct (update_same_config c e d) as (_ & _ & _ & _ & Hm1 & Hm2).
    destruct (update c e d) as [sig c1]; cbn [snd] in *.
    destruct (IH c1) as [Hp2 Hle2]; [lia | lia | assumption |].
    destruct (run c1 fs) as [sigs c2]; cbn [snd] in *.
    split; [assumption|]. cbn [length]. lia.
Qed.

(** X6: a repetition costs at least [min_down_frames + min_up_frames]
    frames: after [n] updates on a fresh counter with positive frame
    thresholds, [reps * (min_down_frames + min_up_frames) <= n]. *)
Theorem repetition_needs_frames : forall da tol up par mdf muf c0 fs,
  (0 < mdf)%Z -> (0 < muf)%Z ->
  init da tol up par mdf muf = Ok c0 ->
  (0 <= reps (snd (run c0 fs)))%Z /\
  (reps (snd (run c0 fs)) * (mdf + muf) <= Z.of_nat (length fs))%Z.
Proof.
  intros da tol up par mdf muf c0 fs Hmd Hmu Hinit.
  unfold init in Hinit. injection Hinit as Hc0. subst c0.
  set (c0 := {| state := Up |}).
  destruct (run_progress fs c0) as [Hp Hle]; try assumption.
  { unfold pending; cbn. lia. }
  destruct (run_same_config fs c0) as (_ & _ & _ & _ & Hm1 & Hm2).
  cbn [min_down_frames min_up_frames c0] in Hm1, Hm2.
  destruct Hp as (Hd & Hu & Hr & Hph).
  split; [assumption|].
  unfold progress in Hle. rewrite Hm1, Hm2 in Hle.
  cbn [state reps down_frames c0] in Hle.
  destruct (state (snd (run c0 fs))); nia.
Qed.

Lemma repetition_needs_frames_witness :
  (0 <= reps (snd (run default one_rep)))%Z /\
  (reps (snd (run default one_rep)) * (3 + 3) <= Z.of_nat (length one_rep))%Z.
Proof.
  apply (repetition_needs_frames 90 15 140 20 3 3 default one_rep).
  - lia.
  - lia.
  - reflexivity.
Defined.

(** X7: [reset] brings any counter back to what the constructor builds from
    the same thresholds, and resetting twice is resetting once. *)
Theorem reset_is_fresh : forall c,
  init (down_angle c) (angle_tolerance c) (up_th c) (parallel_th c)
       (min_down_frames c) (min_up_frames c) = Ok (reset c) /\
  reset (reset c) = reset c /\
  (forall fs, run (reset (snd (run c fs))) = run (reset c)).
Proof.
  intros c. repeat split.
  intros fs. destruct (run_same_config fs c) as (H1 & H2 & H3 & H4 & H5 & H6).
  unfold reset. now rewrite H1, H2, H3, H4, H5, H6.
Qed.

End CounterMoreFacts.

(** ** Signal filter *)

Section FilterMoreFacts.
Import Py Filters FiltersMore.

Lemma alpha_value cutoff fr :
  0 < cutoff -> 0 < fr ->
  _alpha cutoff fr = Ok (2 * PI * cutoff / (2 * PI * cutoff + fr)).
Proof.
  intros Hc Hf. pose proof PI_RGT_0 as Hpi.
  assert (H1 : 0 < 2 * PI * cutoff) by nra.
  assert (Htau : 0 < 1 / (2 * PI * cutoff)) by (apply Rdiv_lt_0_compat; lra).
  assert (Hte : 0 < 1 / fr) by (apply Rdiv_lt_0_compat; lra).
  assert (Hq : 0 < 1 / (2 * PI * cutoff) / (1 / fr))
    by (apply Rdiv_lt_0_compat; assumption).
  unfold _alpha.
  rewrite (truediv_ok 1 (2 * PI * cutoff)) by lra. cbn [bind].
  rewrite (truediv_ok 1 fr) by lra. cbn [bind].
  rewrite truediv_ok by lra. cbn [bind].
  rewrite truediv_ok by lra.
  f_equal. field. repeat split; lra.
Qed.

(** X8: for a positive cutoff and frequency [_alpha] is
    [2 PI cutoff / (2 PI cutoff + freq)], a weight strictly between 0 and
    1 that grows with the cutoff. *)
Theorem alpha_grows_with_cutoff : forall c1 c2 fr,
  0 < c1 -> c1 <= c2 -> 0 < fr ->
  exists a1 a2,
    _alpha c1 fr = Ok a1 /\ _alpha c2 fr = Ok a2 /\
    a1 = 2 * PI * c1 / (2 * PI * c1 + fr) /\
    0 < a1 /\ a1 <= a2 /\ a2 < 1.
Proof.
  intros c1 c2 fr H1 H12 Hf. pose proof PI_RGT_0 as Hpi.
  exists (2 * PI * c1 / (2 * PI * c1 + fr)), (2 * PI * c2 / (2 * PI * c2 + fr)).
  assert (Hk1 : 0 < 2 * PI * c1) by nra.
  assert (Hk2 : 2 * PI * c1 <= 2 * PI * c2) by nra.
  set (k1 := 2 * PI * c1) in *. set (k2 := 2 * PI * c2) in *.
  repeat split.
  - apply alpha_value; assumption.
  - apply alpha_value; lra.
  - apply Rdiv_lt_0_compat; lra.
  - apply Rmult_le_reg_r with (r := (k1 + fr) * (k2 + fr)); [nra|].
    replace (k1 / (k1 + fr) * ((k1 + fr) * (k2 + fr))) with (k1 * (k2 + fr))
      by (field; lra).
    replace (k2 / (k2 + fr) * ((k1 + fr) * (k2 + fr))) with (k2 * (k1 + fr))
      by (field; lra).
    nra.
  - apply Rmult_lt_reg_r with (r := k2 + fr); [lra|].
    replace (k2 / (k2 + fr) * (k2 + fr)) with k2 by (field; lra). lra.
Qed.

Lemma alpha_grows_with_cutoff_witness :
  exists a1 a2,
    _alpha 1 30 = Ok a1 /\ _alpha 2 30 = Ok a2 /\
    a1 = 2 * PI * 1 / (2 * PI * 1 + 30) /\
    0 < a1 /\ a1 <= a2 /\ a2 < 1.
Proof.
  apply (alpha_grows_with_cutoff 1 2 30); lra.
Defined.

(** X9: [_alpha] raises exactly on a zero cutoff, a zero frequency, or
    [freq = - 2 PI cutoff]; the only exception it can raise is
    [ZeroDivisionError]. *)
Theorem alpha_raises_iff : forall cutoff fr,
  (_alpha cutoff fr = Raise ZeroDivisionError <->
   cutoff = 0 \/ fr = 0 \/ 2 * PI * cutoff + fr = 0) /\
  _alpha cutoff fr <> Raise TypeError.
Proof.
  intros cutoff fr. pose proof PI_RGT_0 as Hpi.
  unfold _alpha.
  destruct (Req_dec_T cutoff 0) as [Hc | Hc].
  { subst. replace (2 * PI * 0) with 0 by ring. rewrite truediv_zero.
    cbn [bind]. split; [tauto | discriminate]. }
  assert (Hk : 2 * PI * cutoff <> 0) by nra.
  rewrite (truediv_ok 1 _ Hk). cbn [bind].
  destruct (Req_dec_T fr 0) as [Hf | Hf].
  { subst. rewrite truediv_zero. cbn [bind]. split; [tauto | discriminate]. }
  rewrite (truediv_ok 1 fr Hf). cbn [bind].
  assert (Hte : 1 / fr <> 0).
  { unfold Rdiv. rewrite Rmult_1_l. now apply Rinv_neq_0_compat. }
  rewrite truediv_ok by assumption. cbn [bind].
  assert (Hq : 1 / (2 * PI * cutoff) / (1 / fr) = fr / (2 * PI * cutoff))
    by (field; repeat split; first [assumption | apply PI_neq0]).
  rewrite Hq.
  destruct (Req_dec_T (2 * PI * cutoff + fr) 0) as [Hs | Hs].
  - replace (1 + fr / (2 * PI * cutoff)) with 0.
    + rewrite truediv_zero. split; [tauto | discriminate].
    + replace fr with (- (2 * PI * cutoff)) by lra. field.
      repeat split; first [assumption | apply PI_neq0].
  - assert (Hne : 1 + fr / (2 * PI * cutoff) <> 0).
    { intros H0. apply Hs.
      replace (2 * PI * cutoff + fr)
        with ((1 + fr / (2 * PI * cutoff)) * (2 * PI * cutoff))
        by (field; repeat split; first [assumption | apply PI_neq0]).
      rewrite H0. ring. }
    rewrite truediv_ok by assumption.
    split; [|discriminate]. split; [discriminate|]. tauto.
Qed.

(** A call on an initialized filter with a valid configuration: the value
    returned and stored is an exponential smoothing of the input towards
    the previous output, with a weight in (0, 1]. *)
Lemma call_initialized self x t clock xp dp tp :
  x_prev self = Some xp -> dx_prev self = Some dp -> t_prev self = Some tp ->
  valid_config self ->
  exists a dx_hat,
    0 < a <= 1 /\
    call self x t clock =
    Ok (_exp_smooth a x xp,
        store self (_exp_smooth a x xp) dx_hat
              (match t with None => clock | Some t' => t' end)).
Proof.
  intros Hx Hd Ht (Hmc & Hdc & Hb).
  set (now := match t with None => clock | Some t' => t' end).
  pose proof (time_delta_lower now tp) as Hlow.
  pose proof (inv_time_delta_bounds now tp) as Hfreq.
  unfold call. rewrite Ht, Hx, Hd. fold now.
  rewrite truediv_ok by lra. cbn [bind as_float].
  destruct (alpha_ok (d_cutoff self) (1 / time_delta now tp))
    as (a_d & Had & _); [assumption | tauto |].
  rewrite Had. cbn [bind].
  set (dx_hat := _exp_smooth a_d ((x - xp) * (1 / time_delta now tp)) dp).
  assert (Hcut : 0 < min_cutoff self + beta self * Rabs dx_hat).
  { pose proof (Rabs_pos dx_hat). nra. }
  destruct (alpha_ok _ (1 / time_delta now tp) Hcut) as (a & Ha & Hrange);
    [tauto|].
  rewrite Ha. cbn [bind].
  exists a, dx_hat. split; [assumption | reflexivity].
Qed.

(** X10: over the reals (the arithmetic as written, rounding aside) each
    call moves the output towards the input and never past it: on an
    initialized filter with a valid configuration the distance to the input
    does not grow, and it shrinks strictly unless the previous output
    already equals the input.  The binary64 result can differ from this in
    the last place. *)
Theorem call_moves_towards_input : forall self x t clock xp dp tp,
  x_prev self = Some xp -> dx_prev self = Some dp -> t_prev self = Some tp ->
  valid_config self ->
  exists x_hat self',
    call self x t clock = Ok (x_hat, self') /\
    Rabs (x_hat - x) <= Rabs (xp - x) /\
    (xp <> x -> Rabs (x_hat - x) < Rabs (xp - x)) /\
    (xp <= x -> xp <= x_hat <= x) /\ (x <= xp -> x <= x_hat <= xp).
Proof.
  intros self x t clock xp dp tp Hx Hd Ht Hv.
  destruct (call_initialized self x t clock xp dp tp Hx Hd Ht Hv)
    as (a & dx_hat & Ha & Hcall).
  eexists; eexists. split; [exact Hcall|].
  assert (Hdiff : _exp_smooth a x xp - x = (1 - a) * (xp - x))
    by (unfold _exp_smooth; ring).
  rewrite Hdiff, Rabs_mult, (Rabs_right (1 - a)) by lra.
  pose proof (Rabs_pos (xp - x)) as Hp.
  repeat split; try (unfold _exp_smooth; nra).
  intros Hne. assert (0 < Rabs (xp - x)) by (apply Rabs_pos_lt; lra). nra.
Qed.

Lemma call_moves_towards_input_witness :
  exists x_hat self',
    call (mkFilter 120 1 0 1 (Some 0.5) (Some 0) (Some 10)) 0.7 (Some 11) 0
      = Ok (x_hat, self') /\
    Rabs (x_hat - 0.7) <= Rabs (0.5 - 0.7) /\
    (0.5 <> 0.7 -> Rabs (x_hat - 0.7) < Rabs (0.5 - 0.7)) /\
    (0.5 <= 0.7 -> 0.5 <= x_hat <= 0.7) /\ (0.7 <= 0.5 -> 0.7 <= x_hat <= 0.5).
Proof.
  apply (call_moves_towards_input
           (mkFilter 120 1 0 1 (Some 0.5) (Some 0) (Some 10))
           0.7 (Some 11) 0 0.5 0 10); try reflexivity.
  unfold valid_config; cbn. lra.
Defined.

Lemma feed_constant_initialized x samples : forall self dp tp,
  x_prev self = Some x -> dx_prev self = Some dp -> t_prev self = Some tp ->
  valid_config self ->
  Forall (fun s => fst s = x) samples ->
  exists self',
    feed self samples = Ok (repeat x (length samples), self') /\
    valid_config self'.
Proof.
  induction samples as [|[x' t] samples IH]; intros self dp tp Hx Hd Ht Hv Hall.
  - cbn. now eexists.
  - inversion Hall as [|? ? Hhd Htl]; subst. cbn [fst] in *.
    destruct (call_initialized self x' (Some t) 0 x' dp tp Hx Hd Ht Hv)
      as (a & dx_hat & Ha & Hcall).
    assert (Hfix : _exp_smooth a x' x' = x') by (unfold _exp_smooth; ring).
    rewrite Hfix in Hcall.
    cbn [feed]. rewrite Hcall. cbn [bind fst snd].
    destruct (IH (store self x' dx_hat t) dx_hat t) as (self' & Hfeed & Hv');
      try reflexivity; try assumption.
    rewrite Hfeed. cbn [bind fst snd length repeat]. now eexists.
Qed.

(** X11: over the reals (the arithmetic as written, rounding aside) a
    constant signal passes through unchanged: a filter with a valid
    configuration that has seen nothing yet returns [x] for every sample of
    a constant input [x], whatever the timestamps (repeated or out of order
    included).  In binary64 [a * x + (1 - a) * x] can differ from [x] in the
    last place. *)
Theorem constant_input_is_fixed : forall self samples x,
  t_prev self = None ->
  valid_config self ->
  Forall (fun s => fst s = x) samples ->
  exists self',
    feed self samples = Ok (repeat x (length samples), self').
Proof.
  intros self [|[x' t] samples] x Hnone Hv Hall.
  - cbn. now eexists.
  - inversion Hall as [|? ? Hhd Htl]; subst. cbn [fst] in *.
    cbn [feed]. unfold call at 1. rewrite Hnone. cbn [bind fst snd].
    destruct (feed_constant_initialized x' samples (store self x' 0 t) 0 t)
      as (self' & Hfeed & _); try reflexivity; try assumption.
    rewrite Hfeed. cbn [bind fst snd length repeat]. now eexists.
Qed.

Lemma constant_input_is_fixed_witness :
  exists self',
    feed (mkFilter 120 1 0 1 None None None) [(0.5, 0); (0.5, 0); (0.5, -1)]
      = Ok (repeat 0.5 3, self').
Proof.
  apply (constant_input_is_fixed (mkFilter 120 1 0 1 None None None)
           [(0.5, 0); (0.5, 0); (0.5, -1)] 0.5).
  - reflexivity.
  - unfold valid_config; cbn. lra.
  - repeat constructor.
Defined.

(** X12: [reset] forgets the history and nothing else: whatever the filter
    has seen, the call after a reset returns the raw value, and the
    configuration is the one the filter was built with. *)
Theorem reset_then_call_is_cold : forall self x t clock,
  call (reset self) x t clock =
    Ok (x, store self x 0 (match t with None => clock | Some t' => t' end)) /\
  init (freq self) (min_cutoff self) (beta self) (d_cutoff self)
    = Ok (reset self) /\
  reset (reset self) = reset self.
Proof. intros self x t clock. repeat split. Qed.

(** X13: the two axes of a 2D filter never mix: the filtered x coordinate
    and the new x filter depend only on the x filter and the x input; and
    the first call on a freshly built or reset 2D filter returns the point
    unchanged. *)
Theorem axes_are_independent :
  (forall s1 s2 p1 p2 t clock r1 r2,
     fx s1 = fx s2 -> fst p1 = fst p2 ->
     call2D s1 p1 t clock = Ok r1 -> call2D s2 p2 t clock = Ok r2 ->
     fst (fst r1) = fst (fst r2) /\ fx (snd r1) = fx (snd r2)) /\
  (forall s1 s2 p1 p2 t clock r1 r2,
     fy s1 = fy s2 -> snd p1 = snd p2 ->
     call2D s1 p1 t clock = Ok r1 -> call2D s2 p2 t clock = Ok r2 ->
     snd (fst r1) = snd (fst r2) /\ fy (snd r1) = fy (snd r2)) /\
  (forall fr mc b dc pt t clock, exists f f',
     init2D fr mc b dc = Ok f /\ call2D f pt t clock = Ok (pt, f')) /\
  (forall s pt t clock, exists f',
     call2D (reset2D s) pt t clock = Ok (pt, f')).
Proof.
  repeat split.
  - revert H1 H2. unfold call2D. rewrite H, H0.
    destruct (call (fx s2) (fst p2) t clock) as [rx|]; [|discriminate].
    cbn [bind].
    destruct (call (fy s1) (snd p1) t clock) as [ry1|]; [|discriminate].
    destruct (call (fy s2) (snd p2) t clock) as [ry2|]; [|discriminate].
    cbn [bind]. intros E1 E2. injection E1 as <-. injection E2 as <-.
    reflexivity.
  - revert H1 H2. unfold call2D. rewrite H, H0.
    destruct (call (fx s2) (fst p2) t clock) as [rx|]; [|discriminate].
    cbn [bind].
    destruct (call (fy s1) (snd p1) t clock) as [ry1|]; [|discriminate].
    destruct (call (fy s2) (snd p2) t clock) as [ry2|]; [|discriminate].
    cbn [bind]. intros E1 E2. injection E1 as <-. injection E2 as <-.
    reflexivity.
  - revert H1 H2. unfold call2D. rewrite H, H0.
    destruct (call (fx s1) (fst p1) t clock) as [rx1|]; [|discriminate].
    destruct (call (fx s2) (fst p2) t clock) as [rx2|]; [|discriminate].
    cbn [bind].
    destruct (call (fy s2) (snd p2) t clock) as [ry|]; [|discriminate].
    cbn [bind]. intros E1 E2. injection E1 as <-. injection E2 as <-.
    reflexivity.
  - revert H1 H2. unfold call2D. rewrite H, H0.
    destruct (call (fx s1) (fst p1) t clock) as [rx1|]; [|discriminate].
    destruct (call (fx s2) (fst p2) t clock) as [rx2|]; [|discriminate].
    cbn [bind].
    destruct (call (fy s2) (snd p2) t clock) as [ry|]; [|discriminate].
    cbn [bind]. intros E1 E2. injection E1 as <-. injection E2 as <-.
    reflexivity.
  - intros fr mc b dc [px py] t clock. eexists; eexists.
    split; reflexivity.
  - intros s [px py] t clock. eexists. reflexivity.
Qed.

Lemma axes_are_independent_witness :
  exists r1 r2,
    call2D (mkFilter2D (mkFilter 120 1 0 1 None None None)
                       (mkFilter 120 1 0 1 None None None))
           (0.5, 0.1) (Some 0) 0 = Ok r1 /\
    call2D (mkFilter2D (mkFilter 120 1 0 1 None None None)
                       (mkFilter 60 2 0.1 1 None None None))
           (0.5, 0.9) (Some 0) 0 = Ok r2 /\
    fst (fst r1) = fst (fst r2) /\ fx (snd r1) = fx (snd r2).
Proof.
  eexists; eexists. split; [reflexivity|]. split; [reflexivity|].
  apply (proj1 axes_are_independent
           (mkFilter2D (mkFilter 120 1 0 1 None None None)
                       (mkFilter 120 1 0 1 None None None))
           (mkFilter2D (mkFilter 120 1 0 1 None None None)
                       (mkFilter 60 2 0.1 1 None None None))
           (0.5, 0.1) (0.5, 0.9) (Some 0) 0); reflexivity.
Defined.

End FilterMoreFacts.

(** ** Geometry *)

Section GeometryMoreFacts.
Import Py Geometry GeometryMore.

Lemma dot_comm u v : dot u v = dot v u.
Proof. unfold dot. ring. Qed.

(** X14: the angle at [b] does not depend on the order of the two rays. *)
Theorem angle_symmetric : forall a b c, angle a b c = angle c b a.
Proof.
  intros a b c. unfold angle.
  rewrite (orb_comm (Rltb (norm (sub a b)) 1e-9)).
  rewrite (dot_comm (sub a b)), (Rmult_comm (norm (sub a b))).
  reflexivity.
Qed.

Lemma sub_translate a b v :
  sub (fst a + fst v, snd a + snd v) (fst b + fst v, snd b + snd v) = sub a b.
Proof. unfold sub; cbn [fst snd]. f_equal; ring. Qed.

(** X15: moving the three points by the same vector leaves the angle
    unchanged. *)
Theorem angle_translation_invariant : forall a b c v,
  angle (fst a + fst v, snd a + snd v)
        (fst b + fst v, snd b + snd v)
        (fst c + fst v, snd c + snd v) = angle a b c.
Proof.
  intros a b c v. unfold angle. now rewrite !sub_translate.
Qed.

Lemma norm_scaled u v k :
  fst v = k * fst u -> snd v = k * snd u -> norm v = Rabs k * norm u.
Proof.
  intros Hx Hy. pose proof (norm_nonneg u) as Hn.
  pose proof (norm_sqr u) as Hs. pose proof (Rabs_pos k) as Hk.
  unfold norm at 1. rewrite Hx, Hy. apply sqrt_lem_1.
  - nra.
  - nra.
  - replace (Rabs k * norm u * (Rabs k * norm u))
      with ((Rabs k * Rabs k) * (norm u * norm u)) by ring.
    rewrite Hs. replace (Rabs k * Rabs k) with (k * k).
    + ring.
    + unfold Rabs. destruct (Rcase_abs k); ring.
Qed.

(** X16: over the reals (the arithmetic as written, rounding aside), on
    three points of a line the angle is 0 when the two rays from [b] point
    the same way and 180 when [b] lies between [a] and [c]; so
    [collinearity] of a straight shoulder-hip-ankle line is 180, not 0.
    The binary64 result is only close to these values when the normalized
    dot product rounds away from 1 or -1. *)
Theorem collinear_points_angle : forall a b c k,
  fst (sub c b) = k * fst (sub a b) ->
  snd (sub c b) = k * snd (sub a b) ->
  1e-9 <= norm (sub a b) -> 1e-9 <= norm (sub c b) ->
  (0 < k -> collinearity a b c = 0) /\
  (k < 0 -> collinearity a b c = 180).
Proof.
  intros a b c k Hx Hy Ha Hc. unfold collinearity.
  rewrite angle_regular by assumption.
  pose proof (norm_sqr (sub a b)) as Hs.
  rewrite (norm_scaled (sub a b) (sub c b) k Hx Hy) in *.
  set (n := norm (sub a b)) in *.
  assert (Hdot : dot (sub a b) (sub c b) = k * (n * n)).
  { unfold dot. rewrite Hx, Hy, Hs. ring. }
  rewrite Hdot. split; intros Hk.
  - rewrite (Rabs_right k) by lra.
    replace (k * (n * n) / (n * (k * n))) with 1 by (field; lra).
    rewrite Rmin_left, Rmax_right by lra.
    rewrite acos_1. unfold degrees. ring.
  - rewrite (Rabs_left k) by lra.
    replace (k * (n * n) / (n * (- k * n))) with (- (1)) by (field; lra).
    rewrite Rmin_right, Rmax_right by lra.
    rewrite acos_opp, acos_1. unfold degrees. field. apply PI_neq0.
Qed.

Lemma collinear_points_angle_witness :
  collinearity (0, 0) (1, 0) (3, 0) = 180.
Proof.
  apply (collinear_points_angle (0, 0) (1, 0) (3, 0) (-2)).
  - unfold sub; cbn [fst snd]. lra.
  - unfold sub; cbn [fst snd]. lra.
  - replace (sub (0, 0) (1, 0)) with (-1, 0)
      by (unfold sub; cbn [fst snd]; f_equal; lra).
    rewrite norm_neg_unit_x. lra.
  - replace (sub (3, 0) (1, 0)) with (2, 0)
      by (unfold sub; cbn [fst snd]; f_equal; lra).
    rewrite (norm_scaled (1, 0) (2, 0) 2), norm_unit_x;
      cbn [fst snd]; try lra.
    rewrite Rabs_right; lra.
  - lra.
Defined.

Lemma atan_nonpos x : x <= 0 -> atan x <= 0.
Proof.
  intros [H | ->].
  - left. rewrite <- atan_0. now apply atan_increasing.
  - rewrite atan_0. lra.
Qed.

Lemma atan_pos x : 0 < x -> 0 < atan x.
Proof. intros H. rewrite <- atan_0. now apply atan_increasing. Qed.

Lemma arctan2_range y x : - PI < arctan2 y x <= PI.
Proof.
  pose proof PI_RGT_0 as Hpi. unfold arctan2, Rgtb, Rgeb.
  pose proof (atan_bound (y / x)) as [Hlo Hhi].
  destruct (Rlt_dec 0 x) as [Hx | Hx].
  { rewrite Rltb_true by assumption. lra. }
  rewrite Rltb_false by assumption.
  destruct (Rlt_dec x 0) as [Hx' | Hx'].
  - rewrite Rltb_true by assumption.
    destruct (Rle_dec 0 y) as [Hy | Hy].
    + rewrite Rleb_true by assumption.
      assert (y / x <= 0).
      { apply Rmult_le_reg_r with (r := - x); [lra|].
        replace (y / x * - x) with (- y) by (field; lra). lra. }
      pose proof (atan_nonpos _ H). lra.
    + rewrite Rleb_false by assumption.
      assert (0 < y / x).
      { apply Rmult_lt_reg_r with (r := - x); [lra|].
        replace (y / x * - x) with (- y) by (field; lra). lra. }
      pose proof (atan_pos _ H). lra.
  - rewrite Rltb_false by assumption.
    destruct (Rlt_dec 0 y); [rewrite Rltb_true by assumption; lra|].
    rewrite Rltb_false by assumption.
    destruct (Rlt_dec y 0); [rewrite Rltb_true by assumption; lra|].
    rewrite Rltb_false by assumption. lra.
Qed.

Lemma degrees_arctan2_range y x : -180 < degrees (arctan2 y x) <= 180.
Proof.
  pose proof (arctan2_range y x) as [Hlo Hhi]. pose proof PI_RGT_0 as Hpi.
  unfold degrees.
  assert (Hk : 0 < 180 / PI) by (apply Rdiv_lt_0_compat; lra).
  assert (Hpk : PI * (180 / PI) = 180) by (field; lra).
  split; nra.
Qed.

(** X17: the arm-to-torso difference always lies in [0, 180], is the same
    whichever of the two directions is called the arm, and is 0 when the
    elbow and the hip lie in the same place. *)
Theorem arm_torso_angle_diff_range : forall shoulder elbow hip,
  0 <= arm_torso_angle_diff shoulder elbow hip <= 180 /\
  arm_torso_angle_diff shoulder elbow hip =
    arm_torso_angle_diff shoulder hip elbow /\
  arm_torso_angle_diff shoulder elbow elbow = 0.
Proof.
  intros shoulder elbow hip. unfold arm_torso_angle_diff, Rgtb.
  repeat split.
  - pose proof (degrees_arctan2_range (snd (sub elbow shoulder))
                  (fst (sub elbow shoulder))) as Ha.
    pose proof (degrees_arctan2_range (snd (sub hip shoulder))
                  (fst (sub hip shoulder))) as Ht.
    set (d := Rabs _). assert (Hd : 0 <= d < 360).
    { subst d. split; [apply Rabs_pos|]. unfold Rabs.
      destruct (Rcase_abs _); lra. }
    destruct (Rlt_dec 180 d);
      [rewrite Rltb_true by assumption | rewrite Rltb_false by assumption];
      lra.
  - pose proof (degrees_arctan2_range (snd (sub elbow shoulder))
                  (fst (sub elbow shoulder))) as Ha.
    pose proof (degrees_arctan2_range (snd (sub hip shoulder))
                  (fst (sub hip shoulder))) as Ht.
    set (d := Rabs _). assert (Hd : 0 <= d < 360).
    { subst d. split; [apply Rabs_pos|]. unfold Rabs.
      destruct (Rcase_abs _); lra. }
    destruct (Rlt_dec 180 d);
      [rewrite Rltb_true by assumption | rewrite Rltb_false by assumption];
      lra.
  - now rewrite Rabs_minus_sym.
  - rewrite Rminus_diag, Rabs_R0. now rewrite Rltb_false by lra.
Qed.

Lemma int_zero : int 0 = 0%Z.
Proof.
  unfold int. rewrite Rleb_true by lra.
  destruct (base_Int_part 0) as [H1 H2].
  assert (Int_part 0 <= 0)%Z by (apply le_IZR; lra).
  assert (-1 < Int_part 0)%Z by (apply lt_IZR; lra).
  lia.
Qed.

(** X18: the position is valid exactly when the three checks pass: knee
    angle at least [min_plank_angle], torso tilt at most [max_body_tilt],
    and, only when shoulder and ankle differ in height, the face ratio at
    least [face_down_threshold]; the reason is the success message exactly
    then. *)
Theorem pushup_position_valid_iff :
  forall shoulder hip knee ankle nose min_plank max_tilt thr,
  let r := is_in_pushup_position shoulder hip knee ankle nose
             min_plank max_tilt thr in
  (fst r = true <->
   min_plank <= angle hip knee ankle /\
   Rabs (degrees (arctan2 (snd (sub hip shoulder)) (fst (sub hip shoulder))))
     <= max_tilt /\
   (0 < Rabs (snd shoulder - snd ankle) ->
    thr <= (snd nose - snd shoulder) / Rabs (snd shoulder - snd ankle))) /\
  (fst r = true <-> snd r = Valid_push_up_position).
Proof.
  intros shoulder hip knee ankle nose min_plank max_tilt thr.
  cbv zeta. unfold is_in_pushup_position, Rgtb.
  destruct (Rlt_dec (angle hip knee ankle) min_plank) as [H1 | H1].
  { rewrite Rltb_true by assumption. cbn [fst snd].
    repeat split; try discriminate; intros; lra. }
  rewrite Rltb_false by assumption.
  set (tilt := Rabs (degrees _)).
  destruct (Rlt_dec max_tilt tilt) as [H2 | H2].
  { rewrite Rltb_true by assumption. cbn [fst snd].
    repeat split; try discriminate; intros; lra. }
  rewrite Rltb_false by assumption.
  set (h := Rabs (snd shoulder - snd ankle)).
  destruct (Rlt_dec 0 h) as [H3 | H3].
  - rewrite Rltb_true by assumption.
    destruct (Rlt_dec ((snd nose - snd shoulder) / h) thr) as [H4 | H4].
    + rewrite Rltb_true by assumption. cbn [fst snd].
      repeat split; try discriminate. intros (_ & _ & Hf).
      specialize (Hf H3). lra.
    + rewrite Rltb_false by assumption. cbn [fst snd].
      repeat split; try lra; intros; lra.
  - rewrite Rltb_false by assumption. cbn [fst snd].
    repeat split; try lra; intros; lra.
Qed.

(** X19: two edge cases of the position check: a knee that coincides with
    the hip or the ankle is reported as bent legs at 0 degrees for any
    positive [min_plank_angle]; and when shoulder and ankle are at the same
    height the face check is skipped, so the nose and the threshold do not
    matter. *)
Theorem pushup_position_edge_cases :
  (forall shoulder hip knee ankle nose min_plank max_tilt thr,
     0 < min_plank -> (knee = hip \/ knee = ankle) ->
     is_in_pushup_position shoulder hip knee ankle nose min_plank max_tilt thr
     = (false, Legs_bent 0 min_plank)) /\
  (forall shoulder hip knee ankle nose nose' min_plank max_tilt thr thr',
     snd shoulder = snd ankle ->
     is_in_pushup_position shoulder hip knee ankle nose min_plank max_tilt thr
     = is_in_pushup_position shoulder hip knee ankle nose' min_plank max_tilt
         thr').
Proof.
  split.
  - intros shoulder hip knee ankle nose min_plank max_tilt thr Hpos Hk.
    assert (Hang : angle hip knee ankle = 0).
    { apply angle_degenerate. destruct Hk as [-> | ->];
        [left | right]; rewrite sub_self, norm_origin; lra. }
    unfold is_in_pushup_position. rewrite Hang.
    rewrite Rltb_true by assumption. now rewrite int_zero.
  - intros shoulder hip knee ankle nose nose' min_plank max_tilt thr thr' Hh.
    unfold is_in_pushup_position. rewrite Hh, Rminus_diag, Rabs_R0.
    unfold Rgtb. now rewrite (Rltb_false 0 0) by lra.
Qed.

Lemma pushup_position_edge_cases_witness :
  is_in_pushup_position (0, 0) (1, 0) (1, 0) (3, 0) (0, 1) 160 30 0.3
  = (false, Legs_bent 0 160) /\
  is_in_pushup_position (0, 0) (1, 0) (2, 0) (3, 0) (0, 1) 160 30 0.3
  = is_in_pushup_position (0, 0) (1, 0) (2, 0) (3, 0) (5, -1) 160 30 0.9.
Proof.
  split.
  - apply (proj1 pushup_position_edge_cases (0, 0) (1, 0) (1, 0) (3, 0) (0, 1)
             160 30 0.3).
    + lra.
    + left. reflexivity.
  - apply (proj2 pushup_position_edge_cases (0, 0) (1, 0) (2, 0) (3, 0)
             (0, 1) (5, -1) 160 30 0.3 0.9).
    reflexivity.
Defined.

End GeometryMoreFacts.

(** ** Quality scorer *)

Section ScorerMoreFacts.
Import Py Scorer.

(** The result of [finalize] on a non-empty buffer, field by field. *)
Lemma finalize_breakdown m ms tds tus fps :
  fps <> 0 ->
  let frames := m :: ms in
  let down_s := IZR (Z.max (Z.of_nat (min_idx frames)) 1) / fps in
  let up_s :=
    IZR (Z.max (Z.of_nat (length frames) - 1 - Z.of_nat (min_idx frames)) 1)
    / fps in
  exists td tu,
    tempo down_s tds = Ok td /\ tempo up_s tus = Ok tu /\
    finalize frames tds tus fps =
    Ok {| score :=
            round (0.35 * Np.clip (ROM frames) 0 100
                   + 0.15 * Np.clip (depth_score frames) 0 100
                   + 0.20 * Np.clip (bodyline_score frames) 0 100
                   + 0.10 * Np.clip (0.6 * td + 0.4 * tu) 0 100
                   + 0.10 * Np.clip (stability_score frames) 0 100
                   + 0.10 * Np.clip (symmetry_score frames) 0 100) 1;
          breakdown :=
            [("ROM"%string, Np.clip (ROM frames) 0 100);
             ("Depth"%string, Np.clip (depth_score frames) 0 100);
             ("BodyLine"%string, Np.clip (bodyline_score frames) 0 100);
             ("Tempo"%string, Np.clip (0.6 * td + 0.4 * tu) 0 100);
             ("Stability"%string, Np.clip (stability_score frames) 0 100);
             ("Symmetry"%string, Np.clip (symmetry_score frames) 0 100);
             ("down_seconds"%string, round down_s 2);
             ("up_seconds"%string, round up_s 2)];
          notes := None |}.
Proof.
  intros Hfps frames down_s up_s.
  destruct (tempo_ok down_s tds) as [td Htd].
  destruct (tempo_ok up_s tus) as [tu Htu].
  exists td, tu. split; [assumption|]. split; [assumption|].
  unfold finalize. subst frames.
  rewrite !truediv_ok by assumption. cbn [bind].
  fold down_s. fold up_s. rewrite Htd. cbn [bind]. rewrite Htu. cbn [bind].
  reflexivity.
Qed.

Lemma clip_id x : 0 <= x <= 100 -> Np.clip x 0 100 = x.
Proof.
  intros H. unfold Np.clip. rewrite Rmax_left by lra. now rewrite Rmin_left by lra.
Qed.

(** X20: the buffer operations compose as a caller expects: after [reset]
    the result is the empty one with its note; after any [add_frame], with
    a non-zero frame rate, the result carries no note and its breakdown has
    exactly the eight keys, in the order the code writes them. *)
Theorem buffer_then_finalize : forall self metrics tds tus fps,
  finalize (reset self) tds tus fps =
    Ok {| score := 0; breakdown := [];
          notes := Some ["No frames captured"%string] |} /\
  (fps <> 0 ->
   exists r,
     finalize (add_frame self metrics) tds tus fps = Ok r /\
     notes r = None /\
     map fst (breakdown r) =
       ["ROM"; "Depth"; "BodyLine"; "Tempo"; "Stability"; "Symmetry";
        "down_seconds"; "up_seconds"]%string).
Proof.
  intros self metrics tds tus fps. split; [reflexivity|].
  intros Hfps. unfold add_frame.
  destruct (self ++ [metrics]) as [|m ms] eqn:E.
  { now destruct self. }
  destruct (finalize_breakdown m ms tds tus fps Hfps) as (td & tu & _ & _ & Hfin).
  eexists. split; [exact Hfin|]. split; reflexivity.
Qed.

Lemma buffer_then_finalize_witness :
  exists r,
    finalize (add_frame init (mkFrame 90 90 0.5 0.45 5)) 2 1 30 = Ok r /\
    notes r = None /\
    map fst (breakdown r) =
      ["ROM"; "Depth"; "BodyLine"; "Tempo"; "Stability"; "Symmetry";
       "down_seconds"; "up_seconds"]%string.
Proof.
  apply (buffer_then_finalize init (mkFrame 90 90 0.5 0.45 5) 2 1 30). lra.
Defined.

(** X21: with a frame rate of 0 (a Python float) [finalize] on a non-empty
    buffer raises [ZeroDivisionError]; the empty buffer is answered before
    the frame rate is looked at. *)
Theorem finalize_zero_fps_raises : forall frames tds tus,
  frames <> [] ->
  finalize frames tds tus 0 = Raise ZeroDivisionError.
Proof.
  intros [|m ms] tds tus Hne; [contradiction|].
  unfold finalize. now rewrite truediv_zero.
Qed.

Lemma finalize_zero_fps_raises_witness :
  finalize [mkFrame 90 90 0.5 0.45 5] 2 1 0 = Raise ZeroDivisionError.
Proof.
  apply (finalize_zero_fps_raises [mkFrame 90 90 0.5 0.45 5] 2 1).
  discriminate.
Defined.

(** X22: the tempo score of one phase never raises and lies in [0, 100];
    it is 100 exactly when the measured duration equals the target, and 0
    exactly when the deviation is at least the target (at least [1e-6] for
    a target below [1e-6]). *)
Theorem tempo_score_shape : forall measured target,
  exists v,
    tempo measured target = Ok v /\
    0 <= v <= 100 /\
    (v = 100 <-> measured = target) /\
    (v = 0 <-> Rmax 1e-6 target <= Rabs (measured - target)).
Proof.
  intros measured target. unfold tempo.
  rewrite truediv_ok by apply max_epsilon_nonzero. cbn [bind].
  eexists. split; [reflexivity|].
  rewrite max_Rmax, min_Rmin.
  set (den := Rmax 1e-6 target).
  assert (Hden : 0 < den) by (pose proof (Rmax_l 1e-6 target); subst den; lra).
  set (dev := Rabs (measured - target)).
  assert (Hdev : 0 <= dev) by apply Rabs_pos.
  assert (Hq : 0 <= dev / den).
  { unfold Rdiv. apply Rmult_le_pos; [assumption|].
    left. now apply Rinv_0_lt_compat. }
  assert (Hq1 : dev / den * den = dev) by (field; lra).
  set (q := dev / den) in *.
  assert (Hzero : dev = 0 <-> measured = target).
  { subst dev. split.
    - intros H. destruct (Req_dec_T (measured - target) 0) as [E | E]; [lra|].
      apply Rabs_no_R0 in E. contradiction.
    - intros ->. rewrite Rminus_diag. apply Rabs_R0. }
  unfold Rmin. destruct (Rle_dec q 1) as [Hle | Hgt].
  - split; [split; nra|]. split.
    + rewrite <- Hzero. split; intros H; nra.
    + split; intros H; nra.
  - split; [lra|]. split.
    + rewrite <- Hzero. split; intros H; nra.
    + split; intros H; nra.
Qed.

End ScorerMoreFacts.

Section NumpyMoreFacts.
Import Py.

Lemma fold_max_spec t : forall x,
  x <= fold_left Rmax t x /\
  (forall y, In y t -> y <= fold_left Rmax t x) /\
  (fold_left Rmax t x = x \/ In (fold_left Rmax t x) t).
Proof.
  induction t as [|y t IH]; intros x; cbn [fold_left].
  - repeat split; [lra | intros y [] | now left].
  - destruct (IH (Rmax x y)) as (H1 & H2 & H3).
    pose proof (Rmax_l x y). pose proof (Rmax_r x y).
    repeat split.
    + lra.
    + intros z [-> | Hz]; [lra | now apply H2].
    + destruct H3 as [H3 | H3]; [|right; now right].
      rewrite H3. unfold Rmax. destruct (Rle_dec x y); [right; now left | now left].
Qed.

Lemma amax_spec a :
  a <> [] ->
  In (Np.amax a) a /\ forall y, In y a -> y <= Np.amax a.
Proof.
  destruct a as [|x t]; [contradiction|]. intros _. cbn [Np.amax].
  destruct (fold_max_spec t x) as (H1 & H2 & H3). split.
  - destruct H3 as [-> | H3]; [now left | now right].
  - intros y [<- | Hy]; [assumption | now apply H2].
Qed.

Lemma In_insert y x l : In y (Np.insert x l) -> y = x \/ In y l.
Proof.
  induction l as [|z l IH]; cbn [Np.insert].
  - intros [<- | []]. now left.
  - destruct (Rleb x z).
    + intros [<- | H]; [now left | now right].
    + intros [<- | H]; [right; now left|].
      destruct (IH H) as [-> | H']; [now left | right; now right].
Qed.

Lemma In_sort y l : In y (Np.sort l) -> In y l.
Proof.
  induction l as [|x l IH]; cbn [Np.sort]; [easy|].
  intros H. destruct (In_insert _ _ _ H) as [-> | H']; [now left|].
  right. now apply IH.
Qed.

Lemma length_insert x l : length (Np.insert x l) = S (length l).
Proof.
  induction l as [|z l IH]; cbn [Np.insert]; [reflexivity|].
  destruct (Rleb x z); cbn [length]; now rewrite ?IH.
Qed.

Lemma length_sort l : length (Np.sort l) = length l.
Proof.
  induction l as [|x l IH]; cbn [Np.sort]; [reflexivity|].
  now rewrite length_insert, IH.
Qed.

(** A percentile is a point between two elements of the data. *)
Lemma percentile_between a q :
  a <> [] -> 0 <= q <= 100 ->
  exists u v g,
    In u a /\ In v a /\ 0 <= g <= 1 /\
    Np.percentile a q = u + (v - u) * g.
Proof.
  intros Hne Hq. unfold Np.percentile.
  set (n := length a).
  assert (Hn : (1 <= n)%nat) by (destruct a; [contradiction | cbn; lia]).
  assert (HnR : 1 <= INR n) by (replace 1 with (INR 1) by reflexivity; now apply le_INR).
  set (vi := q / 100 * (INR n - 1)).
  assert (Hvi : 0 <= vi <= INR n - 1).
  { subst vi. split; nra. }
  destruct (base_Int_part vi) as [Hf1 Hf2].
  set (f := Int_part vi) in *.
  assert (Hf0 : (0 <= f)%Z).
  { assert (-1 < f)%Z by (apply lt_IZR; lra). lia. }
  assert (HfR : INR (Z.to_nat f) = IZR f).
  { rewrite INR_IZR_INZ. now rewrite Z2Nat.id. }
  assert (Hfn : (Z.to_nat f <= n - 1)%nat).
  { assert (f <= Z.of_nat n - 1)%Z.
    { apply le_IZR. rewrite minus_IZR, <- INR_IZR_INZ. lra. }
    lia. }
  set (p := Z.to_nat f) in *.
  exists (nth p (Np.sort a) 0), (nth (Nat.min (S p) (n - 1)) (Np.sort a) 0),
         (vi - INR p).
  repeat split.
  - apply In_sort, nth_In. rewrite length_sort. fold n. lia.
  - apply In_sort, nth_In. rewrite length_sort. fold n. lia.
  - lra.
  - lra.
Qed.

Lemma argmin_from_spec a : forall pre best besti,
  (besti < length pre)%nat ->
  nth besti pre 0 = best ->
  (forall i, (i < length pre)%nat -> best <= nth i pre 0) ->
  (forall i, (i < besti)%nat -> best < nth i pre 0) ->
  let r := Np.argmin_from a (length pre) best besti in
  (r < length (pre ++ a))%nat /\
  (forall i, (i < length (pre ++ a))%nat ->
             nth r (pre ++ a) 0 <= nth i (pre ++ a) 0) /\
  (forall i, (i < r)%nat -> nth r (pre ++ a) 0 < nth i (pre ++ a) 0).
Proof.
  induction a as [|x t IH]; intros pre best besti Hb Hnth Hall Hfirst.
  - cbn [Np.argmin_from]. rewrite app_nil_r, Hnth. auto.
  - cbn [Np.argmin_from].
    replace (pre ++ x :: t) with ((pre ++ [x]) ++ t)
      by (now rewrite <- app_assoc).
    replace (S (length pre)) with (length (pre ++ [x]))
      by (rewrite length_app; cbn; lia).
    destruct (Rlt_dec x best) as [Hlt | Hge].
    + rewrite Rltb_true by assumption.
      apply IH.
      * rewrite length_app; cbn; lia.
      * now rewrite app_nth2, Nat.sub_diag by lia.
      * intros i Hi. rewrite length_app in Hi; cbn in Hi.
        destruct (Nat.eq_dec i (length pre)) as [-> | Hne].
        -- rewrite app_nth2, Nat.sub_diag by lia. cbn. lra.
        -- rewrite app_nth1 by lia. specialize (Hall i ltac:(lia)). lra.
      * intros i Hi. rewrite app_nth1 by lia.
        specialize (Hall i Hi). lra.
    + rewrite Rltb_false by assumption.
      apply IH.
      * rewrite length_app; cbn; lia.
      * now rewrite app_nth1 by lia.
      * intros i Hi. rewrite length_app in Hi; cbn in Hi.
        destruct (Nat.eq_dec i (length pre)) as [-> | Hne].
        -- rewrite app_nth2, Nat.sub_diag by lia. cbn. lra.
        -- rewrite app_nth1 by lia. apply Hall. lia.
      * intros i Hi. rewrite app_nth1 by lia. now apply Hfirst.
Qed.

Lemma argmin_spec a :
  a <> [] ->
  (Np.argmin a < length a)%nat /\
  (forall i, (i < length a)%nat -> nth (Np.argmin a) a 0 <= nth i a 0) /\
  (forall i, (i < Np.argmin a)%nat -> nth (Np.argmin a) a 0 < nth i a 0).
Proof.
  destruct a as [|x t]; [contradiction|]. intros _. cbn [Np.argmin].
  apply (argmin_from_spec t [x] x 0%nat).
  - cbn; lia.
  - reflexivity.
  - intros i Hi. cbn in Hi. replace i with 0%nat by lia. cbn. lra.
  - intros i Hi. lia.
Qed.

Lemma fold_plus_constant c l : forall acc,
  (forall x, In x l -> x = c) ->
  fold_left Rplus l acc = acc + INR (length l) * c.
Proof.
  induction l as [|x l IH]; intros acc Hall.
  - cbn. ring.
  - cbn [fold_left]. rewrite IH by (intros y Hy; apply Hall; now right).
    rewrite (Hall x) by now left.
    cbn [length]. rewrite S_INR. ring.
Qed.

Lemma mean_constant c l :
  l <> [] -> (forall x, In x l -> x = c) -> Np.mean l = c.
Proof.
  intros Hne Hall. unfold Np.mean, Np.sum.
  rewrite (fold_plus_constant c) by assumption.
  assert (0 < INR (length l)).
  { apply lt_0_INR. destruct l; [contradiction | cbn; lia]. }
  field. lra.
Qed.

Lemma std_constant c l :
  l <> [] -> (forall x, In x l -> x = c) -> Np.std l = 0.
Proof.
  intros Hne Hall. unfold Np.std. rewrite (mean_constant c l) by assumption.
  rewrite (mean_constant 0).
  - apply sqrt_0.
  - destruct l; [contradiction | discriminate].
  - intros y Hy. apply in_map_iff in Hy. destruct Hy as (x & <- & Hx).
    rewrite (Hall x Hx), Rminus_diag, Rabs_R0. ring.
Qed.

Lemma round_half_even_close y :
  Rabs (IZR (round_half_even y) - y) <= 1 / 2.
Proof.
  unfold round_half_even.
  destruct (base_Int_part y) as [Hf1 Hf2].
  set (f := Int_part y) in *.
  destruct (Rlt_dec (y - IZR f) (1 / 2)) as [H1 | H1].
  { rewrite Rltb_true by assumption. unfold Rabs.
    destruct (Rcase_abs _); lra. }
  rewrite Rltb_false by assumption.
  assert (Hup : Rabs (IZR (f + 1) - y) <= 1 / 2).
  { rewrite plus_IZR. unfold Rabs. destruct (Rcase_abs _); lra. }
  destruct (Rlt_dec (1 / 2) (y - IZR f)) as [H2 | H2].
  { now rewrite Rltb_true by assumption. }
  rewrite Rltb_false by assumption.
  destruct (Z.even f); [|assumption].
  unfold Rabs. destruct (Rcase_abs _); lra.
Qed.

End NumpyMoreFacts.

Section ScorerMoreClaims.
Import Py Scorer.

(** X23: the turning point used for tempo and symmetry is a frame of the
    buffer, it has the least mean elbow angle of all frames, and it is the
    first frame that has it. *)
Theorem turning_point_is_first_minimum : forall frames,
  frames <> [] ->
  (min_idx frames < length frames)%nat /\
  (forall i, (i < length frames)%nat ->
     nth (min_idx frames) (mean_elbow frames) 0
     <= nth i (mean_elbow frames) 0) /\
  (forall i, (i < min_idx frames)%nat ->
     nth (min_idx frames) (mean_elbow frames) 0
     < nth i (mean_elbow frames) 0).
Proof.
  intros frames Hne. unfold min_idx.
  assert (Hne' : mean_elbow frames <> []).
  { unfold mean_elbow. destruct frames; [contradiction | discriminate]. }
  destruct (argmin_spec (mean_elbow frames) Hne') as (H1 & H2 & H3).
  assert (Hlen : length (mean_elbow frames) = length frames)
    by (unfold mean_elbow; apply length_map).
  rewrite Hlen in *. auto.
Qed.

Lemma turning_point_is_first_minimum_witness :
  let frames := [mkFrame 150 150 0 0 0; mkFrame 90 90 0 0 0;
                 mkFrame 90 90 0 0 0] in
  (min_idx frames < length frames)%nat /\
  (forall i, (i < length frames)%nat ->
     nth (min_idx frames) (mean_elbow frames) 0
     <= nth i (mean_elbow frames) 0) /\
  (forall i, (i < min_idx frames)%nat ->
     nth (min_idx frames) (mean_elbow frames) 0
     < nth i (mean_elbow frames) 0).
Proof.
  apply (turning_point_is_first_minimum
           [mkFrame 150 150 0 0 0; mkFrame 90 90 0 0 0; mkFrame 90 90 0 0 0]).
  discriminate.
Defined.

(** X24: the depth score saturates: it is 100 as soon as one frame has the
    shoulder at least 0.08 below the hip line ([shoulder_y - hip_y >= 0.08])
    and 0 when no frame has the shoulder below the hip at all. *)
Theorem depth_score_saturates : forall frames,
  ((exists m, In m frames /\ 0.08 <= shoulder_y m - hip_y m) ->
   depth_score frames = 100) /\
  (frames <> [] ->
   (forall m, In m frames -> shoulder_y m - hip_y m <= 0) ->
   depth_score frames = 0).
Proof.
  intros frames. unfold depth_score.
  rewrite interp_increasing by lra. split.
  - intros (m & Hin & Hm).
    assert (Hne : depth_series frames <> []).
    { unfold depth_series. destruct frames; [destruct Hin | discriminate]. }
    destruct (amax_spec _ Hne) as [_ Hmax].
    specialize (Hmax (shoulder_y m - hip_y m)).
    rewrite lerp_clamped_right; [reflexivity | lra |].
    assert (shoulder_y m - hip_y m <= Np.amax (depth_series frames)).
    { apply Hmax. unfold depth_series.
      apply (in_map (fun m => shoulder_y m - hip_y m)). exact Hin. }
    lra.
  - intros Hne Hall.
    assert (Hne' : depth_series frames <> []).
    { unfold depth_series. destruct frames; [contradiction | discriminate]. }
    destruct (amax_spec _ Hne') as [Hin _].
    unfold depth_series in Hin at 2. apply in_map_iff in Hin.
    destruct Hin as (m & Hm & Hin). specialize (Hall m Hin).
    rewrite lerp_clamped_left; [reflexivity | lra | lra].
Qed.

Lemma depth_score_saturates_witness :
  depth_score [mkFrame 90 90 0.5 0.4 0; mkFrame 90 90 0.4 0.4 0] = 100 /\
  depth_score [mkFrame 90 90 0.3 0.4 0; mkFrame 90 90 0.4 0.4 0] = 0.
Proof.
  split.
  - apply (proj1 (depth_score_saturates
                    [mkFrame 90 90 0.5 0.4 0; mkFrame 90 90 0.4 0.4 0])).
    exists (mkFrame 90 90 0.5 0.4 0). split; [now left | cbn; lra].
  - apply (proj2 (depth_score_saturates
                    [mkFrame 90 90 0.3 0.4 0; mkFrame 90 90 0.4 0.4 0])).
    + discriminate.
    + intros m [<- | [<- | []]]; cbn; lra.
Defined.

(** X25: the body-line score reads [line_dev] as a deviation: a buffer
    whose deviations are all at least 40 degrees scores 0, and one whose
    deviations are all 0 (or less) scores 100.  A straight shoulder-hip-
    ankle line, for which [collinearity] returns 180, is in the first
    case. *)
Theorem bodyline_score_extremes : forall frames,
  frames <> [] ->
  ((forall m, In m frames -> 40 <= line_dev m) -> bodyline_score frames = 0) /\
  ((forall m, In m frames -> line_dev m <= 0) -> bodyline_score frames = 100).
Proof.
  intros frames Hne.
  assert (Hne' : line_devs frames <> []).
  { unfold line_devs. destruct frames; [contradiction | discriminate]. }
  destruct (percentile_between (line_devs frames) 90 Hne')
    as (u & v & g & Hu & Hv & Hg & Hp); [lra|].
  unfold line_devs in Hu, Hv. apply in_map_iff in Hu, Hv.
  destruct Hu as (mu & <- & Hu). destruct Hv as (mv & <- & Hv).
  unfold bodyline_score. rewrite interp_increasing by lra. rewrite Hp.
  split; intros Hall.
  - pose proof (Hall mu Hu). pose proof (Hall mv Hv).
    rewrite lerp_clamped_left; [reflexivity | lra | nra].
  - pose proof (Hall mu Hu). pose proof (Hall mv Hv).
    rewrite lerp_clamped_right; [reflexivity | lra | nra].
Qed.

Lemma bodyline_score_extremes_witness :
  bodyline_score [mkFrame 90 90 0 0 180; mkFrame 90 90 0 0 175] = 0 /\
  bodyline_score [mkFrame 90 90 0 0 0; mkFrame 90 90 0 0 0] = 100.
Proof.
  split.
  - apply (proj1 (bodyline_score_extremes
                    [mkFrame 90 90 0 0 180; mkFrame 90 90 0 0 175]
                    ltac:(discriminate))).
    intros m [<- | [<- | []]]; cbn; lra.
  - apply (proj2 (bodyline_score_extremes
                    [mkFrame 90 90 0 0 0; mkFrame 90 90 0 0 0]
                    ltac:(discriminate))).
    intros m [<- | [<- | []]]; cbn; lra.
Defined.

Lemma symmetric_lists frames :
  (forall m, In m frames -> elbowL m = elbowR m) -> eL frames = eR frames.
Proof. intros H. unfold eL, eR. now apply map_ext_in. Qed.

(** X26: a repetition with equal left and right elbow angles in every frame
    gets Symmetry 100 in the breakdown [finalize] returns, and a buffer of a
    single frame gets Stability 100. *)
Theorem symmetric_elbows_score_full : forall frames tds tus fps,
  frames <> [] -> fps <> 0 ->
  exists r,
    finalize frames tds tus fps = Ok r /\
    ((forall m, In m frames -> elbowL m = elbowR m) ->
     dict_get "Symmetry" (breakdown r) = Some 100) /\
    (length frames = 1%nat ->
     dict_get "Stability" (breakdown r) = Some 100).
Proof.
  intros [|m ms] tds tus fps Hne Hfps; [contradiction|].
  destruct (finalize_breakdown m ms tds tus fps Hfps)
    as (td & tu & _ & _ & Hfin).
  eexists. split; [exact Hfin|]. cbn [breakdown]. split.
  - intros Hsym. cbn. f_equal.
    unfold symmetry_score, sym_bottom, sym_top.
    rewrite (symmetric_lists _ Hsym), !Rminus_diag, Rabs_R0.
    rewrite interp_increasing by lra.
    rewrite lerp_clamped_left by lra.
    replace (100 - 0) with 100 by lra. apply clip_id. lra.
  - intros Hone. destruct ms; [|discriminate]. cbn. f_equal.
    unfold stability_score. rewrite (std_constant (hip_y m)).
    + rewrite interp_increasing by lra.
      rewrite lerp_clamped_left by lra.
      replace (100 - 0) with 100 by lra. apply clip_id. lra.
    + discriminate.
    + intros y [<- | []]. reflexivity.
Qed.

Lemma symmetric_elbows_score_full_witness :
  (exists r,
     finalize [mkFrame 150 150 0.4 0.5 0; mkFrame 90 90 0.45 0.5 0] 2 1 30
       = Ok r /\
     dict_get "Symmetry" (breakdown r) = Some 100) /\
  (exists r,
     finalize [mkFrame 95 90 0.45 0.5 3] 2 1 30 = Ok r /\
     dict_get "Stability" (breakdown r) = Some 100).
Proof.
  split.
  - destruct (symmetric_elbows_score_full
                [mkFrame 150 150 0.4 0.5 0; mkFrame 90 90 0.45 0.5 0] 2 1 30)
      as (r & Hfin & Hsym & _); [discriminate | lra |].
    exists r. split; [exact Hfin|].
    apply Hsym. intros m [<- | [<- | []]]; reflexivity.
  - destruct (symmetric_elbows_score_full
                [mkFrame 95 90 0.45 0.5 3] 2 1 30)
      as (r & Hfin & _ & Hstab); [discriminate | lra |].
    exists r. split; [exact Hfin|]. apply Hstab. reflexivity.
Defined.

(** X27: the final score is the weighted sum of the six reported
    sub-scores (weights 0.35, 0.15, 0.20, 0.10, 0.10, 0.10) rounded to one
    decimal: a whole number of tenths within 0.05 of that sum. *)
Theorem score_is_rounded_weighted_sum : forall frames tds tus fps,
  frames <> [] -> fps <> 0 ->
  exists r rom depth body tmp stab sym,
    finalize frames tds tus fps = Ok r /\
    dict_get "ROM" (breakdown r) = Some rom /\
    dict_get "Depth" (breakdown r) = Some depth /\
    dict_get "BodyLine" (breakdown r) = Some body /\
    dict_get "Tempo" (breakdown r) = Some tmp /\
    dict_get "Stability" (breakdown r) = Some stab /\
    dict_get "Symmetry" (breakdown r) = Some sym /\
    Rabs (score r - (0.35 * rom + 0.15 * depth + 0.20 * body
                     + 0.10 * tmp + 0.10 * stab + 0.10 * sym)) <= 0.05 /\
    exists z, score r = IZR z / 10.
Proof.
  intros [|m ms] tds tus fps Hne Hfps; [contradiction|].
  destruct (finalize_breakdown m ms tds tus fps Hfps)
    as (td & tu & _ & _ & Hfin).
  do 7 eexists. split; [exact Hfin|]. cbn [breakdown score].
  do 6 (split; [reflexivity|]).
  set (w := 0.35 * _ + _ + _ + _ + _ + _).
  unfold round. replace (10 ^ 1) with 10 by (simpl; ring).
  split; [|now eexists].
  pose proof (round_half_even_close (w * 10)) as Hc.
  set (z := IZR (round_half_even (w * 10))) in *.
  replace (z / 10 - w) with ((z - w * 10) / 10) by (field; lra).
  unfold Rdiv. rewrite Rabs_mult, (Rabs_right (/ 10)) by lra. lra.
Qed.

Lemma score_is_rounded_weighted_sum_witness :
  exists r rom depth body tmp stab sym,
    finalize [mkFrame 90 88 0.5 0.45 5] 2 1 30 = Ok r /\
    dict_get "ROM" (breakdown r) = Some rom /\
    dict_get "Depth" (breakdown r) = Some depth /\
    dict_get "BodyLine" (breakdown r) = Some body /\
    dict_get "Tempo" (breakdown r) = Some tmp /\
    dict_get "Stability" (breakdown r) = Some stab /\
    dict_get "Symmetry" (breakdown r) = Some sym /\
    Rabs (score r - (0.35 * rom + 0.15 * depth + 0.20 * body
                     + 0.10 * tmp + 0.10 * stab + 0.10 * sym)) <= 0.05 /\
    exists z, score r = IZR z / 10.
Proof.
  apply (score_is_rounded_weighted_sum [mkFrame 90 88 0.5 0.45 5] 2 1 30).
  - discriminate.
  - lra.
Defined.

End ScorerMoreClaims.

(** ** Keypoint table *)

Section PoseDetectionFacts.
Import PoseDetection.
Open Scope string_scope.

Lemma name_to_idx_value :
  NAME_TO_IDX =
  [("nose", 0); ("left_eye", 1); ("right_eye", 2); ("left_ear", 3);
   ("right_ear", 4); ("left_shoulder", 5); ("right_shoulder", 6);
   ("left_elbow", 7); ("right_elbow", 8); ("left_wrist", 9);
   ("right_wrist", 10); ("left_hip", 11); ("right_hip", 12);
   ("left_knee", 13); ("right_knee", 14); ("left_ankle", 15);
   ("right_ankle", 16)]%nat.
Proof. reflexivity. Qed.

Lemma lookup_iff_nth name i :
  dict_lookup name NAME_TO_IDX = Some i <->
  nth_error KEYPOINT_NAMES i = Some name.
Proof.
  rewrite name_to_idx_value. split.
  - cbn [dict_lookup].
    repeat match goal with
           | |- context [String.eqb name ?k] =>
               destruct (String.eqb_spec name k) as [-> | ?];
               [intros [= <-]; reflexivity|]
           end.
    discriminate.
  - unfold KEYPOINT_NAMES.
    do 17 (destruct i as [|i]; [intros [= <-]; reflexivity|]).
    destruct i; discriminate.
Qed.

(** X28: [NAME_TO_IDX] is the inverse of [KEYPOINT_NAMES]: a name maps to
    [i] exactly when it is the [i]-th name of the list; the 17 names are
    distinct, so every index below 17 is hit by exactly one name. *)
Theorem name_to_idx_inverts_keypoint_names :
  (forall name i,
     dict_lookup name NAME_TO_IDX = Some i <->
     nth_error KEYPOINT_NAMES i = Some name) /\
  NoDup KEYPOINT_NAMES /\
  length KEYPOINT_NAMES = 17%nat /\
  (forall name i, dict_lookup name NAME_TO_IDX = Some i -> (i < 17)%nat) /\
  (forall name, dict_lookup name NAME_TO_IDX = None <->
                ~ In name KEYPOINT_NAMES).
Proof.
  split; [exact lookup_iff_nth|]. split; [|split; [reflexivity|split]].
  - unfold KEYPOINT_NAMES.
    repeat (constructor;
            [cbn [In]; intros H; decompose [or] H; try discriminate; assumption|]).
    constructor.
  - intros name i H. apply lookup_iff_nth in H.
    assert (Hs : nth_error KEYPOINT_NAMES i <> None) by congruence.
    apply nth_error_Some in Hs. exact Hs.
  - intros name. split.
    + intros Hnone Hin. apply In_nth_error in Hin. destruct Hin as [i Hi].
      apply lookup_iff_nth in Hi. congruence.
    + intros Hnin. destruct (dict_lookup name NAME_TO_IDX) as [i|] eqn:E;
        [|reflexivity].
      apply lookup_iff_nth in E. apply nth_error_In in E. contradiction.
Qed.

(** X29: on arrays of 17 keypoints [get_keypoint] returns, for each of the
    17 names, the position and confidence stored at that name's index, and
    raises [KeyError] for any other name; every keypoint the main loop asks
    for is one of the 17. *)
Theorem get_keypoint_total_on_names : forall name keypoints_xy confidences,
  length keypoints_xy = 17%nat -> length confidences = 17%nat ->
  (In name KEYPOINT_NAMES ->
   exists i p c,
     nth_error KEYPOINT_NAMES i = Some name /\
     nth_error keypoints_xy i = Some p /\
     nth_error confidences i = Some c /\
     get_keypoint name keypoints_xy confidences = inr (p, c)) /\
  (~ In name KEYPOINT_NAMES ->
   get_keypoint name keypoints_xy confidences = inl (KeyError name)) /\
  (forall n, In n needed_keypoints -> In n KEYPOINT_NAMES).
Proof.
  intros name kps conf Hk Hc. repeat split.
  - intros Hin. apply In_nth_error in Hin. destruct Hin as [i Hi].
    assert (Hlt : (i < 17)%nat).
    { assert (Hs : nth_error KEYPOINT_NAMES i <> None) by congruence.
      apply nth_error_Some in Hs. exact Hs. }
    destruct (nth_error kps i) as [p|] eqn:Ep;
      [|apply nth_error_None in Ep; lia].
    destruct (nth_error conf i) as [c|] eqn:Ec;
      [|apply nth_error_None in Ec; lia].
    exists i, p, c. repeat split; try assumption.
    unfold get_keypoint. apply lookup_iff_nth in Hi.
    now rewrite Hi, Ep, Ec.
  - intros Hnin. unfold get_keypoint.
    destruct (dict_lookup name NAME_TO_IDX) as [i|] eqn:E; [|reflexivity].
    apply lookup_iff_nth in E. apply nth_error_In in E. contradiction.
  - intros n Hn. unfold needed_keypoints in Hn. unfold KEYPOINT_NAMES.
    cbn [In] in *. decompose [or] Hn; subst; tauto.
Qed.

Lemma get_keypoint_total_on_names_witness :
  exists i p c,
    nth_error KEYPOINT_NAMES i = Some "left_elbow" /\
    nth_error (repeat (0, 0)%R 17) i = Some p /\
    nth_error (repeat 1%R 17) i = Some c /\
    get_keypoint "left_elbow" (repeat (0, 0)%R 17) (repeat 1%R 17)
      = inr (p, c).
Proof.
  apply (get_keypoint_total_on_names "left_elbow"
           (repeat (0, 0)%R 17) (repeat 1%R 17)).
  - reflexivity.
  - reflexivity.
  - unfold KEYPOINT_NAMES. cbn [In]. tauto.
Defined.

End PoseDetectionFacts.

(** ** Frame loop *)

Section MainFacts.
Import Py Main.

(** X30: in the frame loop a repetition is only ever scored on a non-empty
    buffer: with a non-zero frame rate the tracking step never raises, a
    score is produced only when the counter signals a repetition, that
    score never is the "No frames captured" result, and the step then
    leaves no repetition in progress; without a score a repetition in
    progress stays in progress. *)
Theorem track_scores_nonempty_buffer :
  forall s eL eR sy hy ld abd fps,
  fps <> 0 ->
  exists s' res,
    track s eL eR sy hy ld abd fps = Ok (s', res) /\
    counter s' = snd (Counter.update (counter s) ((eL + eR) / 2) (Some abd)) /\
    (forall r, res = Some r ->
       fst (Counter.update (counter s) ((eL + eR) / 2) (Some abd)) = true /\
       rep_scorer s' <> [] /\
       Scorer.notes r = None /\
       in_rep s' = false) /\
    (res = None -> in_rep s = true -> in_rep s' = true).
Proof.
  intros s eL eR sy hy ld abd fps Hfps. unfold track.
  set (upd := Counter.update _ _ _).
  set (start := negb (in_rep s) && Rltb ((eL + eR) / 2) 160).
  remember (if start then true else in_rep s) as in_rep1 eqn:Erep.
  destruct (fst upd) eqn:Esig; destruct in_rep1; cbn [andb].
  - set (buf := Scorer.add_frame _ _).
    assert (Hbuf : buf <> []).
    { subst buf. unfold Scorer.add_frame. intros H.
      apply app_eq_nil in H. destruct H as [_ H]. discriminate. }
    destruct buf as [|m ms] eqn:Ebuf; [contradiction|].
    destruct (finalize_breakdown m ms 2 1 fps Hfps)
      as (td & tu & _ & _ & Hfin).
    rewrite Hfin. cbn [bind]. eexists; eexists. split; [reflexivity|].
    cbn [counter rep_scorer in_rep]. split; [reflexivity|]. split.
    + intros r0 Hr. injection Hr as <-.
      split; [reflexivity|]. split; [discriminate|]. split; reflexivity.
    + discriminate.
  - eexists; eexists. split; [reflexivity|].
    cbn [counter rep_scorer in_rep]. split; [reflexivity|]. split.
    + intros r0 Hr. discriminate.
    + intros _ Hin. destruct start; congruence.
  - eexists; eexists. split; [reflexivity|].
    cbn [counter rep_scorer in_rep]. split; [reflexivity|]. split.
    + intros r0 Hr. discriminate.
    + reflexivity.
  - eexists; eexists. split; [reflexivity|].
    cbn [counter rep_scorer in_rep]. split; [reflexivity|]. split.
    + intros r0 Hr. discriminate.
    + intros _ Hin. destruct start; congruence.
Qed.

Lemma track_scores_nonempty_buffer_witness :
  let c_down := Counter.mkCounter Counter.Down 0 1 0 80 30 120 40 1 1 in
  let s := mkTracker c_down [Scorer.mkFrame 80 80 0.5 0.5 0] true in
  exists s' r,
    track s 170 170 0.5 0.5 0 10 30 = Ok (s', Some r) /\
    Counter.reps (counter s') = 1%Z /\
    rep_scorer s' <> [] /\
    Scorer.notes r = None /\
    in_rep s' = false.
Proof.
  cbv zeta.
  set (c_down := Counter.mkCounter Counter.Down 0 1 0 80 30 120 40 1 1).
  set (s := mkTracker c_down [Scorer.mkFrame 80 80 0.5 0.5 0] true).
  destruct (track_scores_nonempty_buffer s 170 170 0.5 0.5 0 10 30)
    as (s' & res & Htrack & Hcounter & Hscored & _); [lra|].
  assert (Hup : Counter.up_qualifying c_down ((170 + 170) / 2, Some 10)).
  { unfold Counter.up_qualifying, Counter.in_down_position.
    cbn [fst snd c_down Counter.down_angle Counter.angle_tolerance
         Counter.parallel_th Counter.up_th].
    split; [|lra].
    rewrite Rleb_false; [reflexivity|].
    unfold Rabs. destruct (Rcase_abs _); lra. }
  assert (Hupd : Counter.update c_down ((170 + 170) / 2) (Some 10) =
                 (true, Counter.set_up c_down Counter.Up 1 1)).
  { rewrite (update_up _ _ _ Hup). reflexivity. }
  assert (Hres : exists r, res = Some r).
  { revert Htrack. unfold track. cbn [counter rep_scorer in_rep s negb andb].
    rewrite Hupd. cbn [fst snd andb].
    destruct (Scorer.finalize _ 2 1 30) as [r|e]; cbn [bind].
    - intros [= <- <-]. now exists r.
    - discriminate. }
  destruct Hres as [r ->].
  destruct (Hscored r eq_refl) as (_ & Hbuf & Hnotes & Hin).
  exists s', r. split; [exact Htrack|]. split.
  - rewrite Hcounter. cbn [counter s]. rewrite Hupd. reflexivity.
  - auto.
Defined.

End MainFacts.
